(** * Echo-Meeting: a shallow embedding of the recorder controller and of the
      transcription service, with the properties of its specification.

    Sources embedded here:
    - [src/services/geminiService.ts]  ([analyzeAudio]) in [Module GeminiService];
    - [src/unnamed/part_001] (types and the application component with the
      optional microphone) in [Module App1];
    - [src/unnamed/part_002] (the application component that records the
      display audio only) in [Module App2];
    - [src/unnamed/part_000] (the visualizer the two components render) in
      [Module AudioVisualizer].

    Conventions.
    - A JavaScript string is a [string]; a character stands for one UTF-16
      code unit below 256.
    - A React state variable lives in the record [App]; its setter keeps the
      source's name.  A handler reads the state variables of the render that
      created it: the model reads them once, where the handler starts.
    - An [await] is modelled as one step with the platform's answer as an
      argument: the model runs a handler to its end before the next event. *)

From Stdlib Require Import Ascii DecimalString Decimal DecimalNat DecimalN QArith.
From stdpp Require Import base gmap sets list strings.

(* ===================================================================== *)
(** ** JavaScript's string functions, as far as the sources use them      *)
(* ===================================================================== *)

Module Js.

(** [WhiteSpace] and [LineTerminator] of ECMAScript among the code units
    below 256: TAB, LF, VT, FF, CR, SP, NBSP. *)
Definition isWhiteSpace (c : ascii) : bool :=
  let n := nat_of_ascii c in
  (n =? 9) || (n =? 10) || (n =? 11) || (n =? 12) || (n =? 13) || (n =? 32) || (n =? 160).

Fixpoint str_take (n : nat) (s : string) : string :=
  match n, s with
  | S n', String c s' => String c (str_take n' s')
  | _, _ => ""
  end.

Fixpoint str_drop (n : nat) (s : string) : string :=
  match n, s with
  | S n', String _ s' => str_drop n' s'
  | _, _ => s
  end.

(** [s.startsWith(p)]; the sources use it through [indexOf], [includes] and
    [replace]. *)
Fixpoint startsWith (s p : string) : bool :=
  match p, s with
  | EmptyString, _ => true
  | String _ _, EmptyString => false
  | String a p', String b s' => if Ascii.eqb a b then startsWith s' p' else false
  end.

(** [s.indexOf(p)]: the least position at which [p] occurs; [None] is the -1
    of JavaScript. *)
Fixpoint indexOf (s p : string) : option nat :=
  if startsWith s p then Some 0
  else match s with
       | EmptyString => None
       | String _ s' => S <$> indexOf s' p
       end.

(** [s.includes(p)] *)
Definition includes (s p : string) : bool :=
  match indexOf s p with Some _ => true | None => false end.

(** [s.substring(from, to)]: the two indices are swapped when [from > to]. *)
Definition substring (s : string) (from to : nat) : string :=
  str_take (Nat.max from to - Nat.min from to) (str_drop (Nat.min from to) s).

(** [s.substring(from)] *)
Definition substringFrom (s : string) (from : nat) : string := str_drop from s.

(** [s.slice(from, to)] for indices that are not negative. *)
Definition slice (s : string) (from to : nat) : string :=
  str_take (to - from) (str_drop from s).

(** [s.replace(p, r)] with a string pattern: only the first occurrence of [p]
    is replaced.  [r] is taken literally (the sources pass the empty string). *)
Fixpoint replace (s p r : string) : string :=
  if startsWith s p then r +:+ str_drop (String.length p) s
  else match s with
       | EmptyString => EmptyString
       | String c s' => String c (replace s' p r)
       end.

Fixpoint trimStart (s : string) : string :=
  match s with
  | EmptyString => EmptyString
  | String c s' => if isWhiteSpace c then trimStart s' else s
  end.

Fixpoint trimEnd (s : string) : string :=
  match s with
  | EmptyString => EmptyString
  | String c s' =>
      match trimEnd s' with
      | EmptyString => if isWhiteSpace c then EmptyString else String c EmptyString
      | t => String c t
      end
  end.

(** [s.trim()] *)
Definition trim (s : string) : string := trimEnd (trimStart s).

(** [n.toString()] for a natural number. *)
Definition toString (n : nat) : string := NilZero.string_of_uint (Nat.to_uint n).

(** [n.toString()] for a large natural number (a time stamp). *)
Definition toStringN (n : N) : string := NilZero.string_of_uint (N.to_uint n).

(** JavaScript's truthiness of a string: the empty string is falsy. *)
Definition truthy (s : string) : bool :=
  match s with EmptyString => false | String _ _ => true end.

(** [a || b] on strings. *)
Definition or_else (a b : string) : string := if truthy a then a else b.

End Js.

(* ===================================================================== *)
(** ** Completions: normal, thrown, early return                          *)
(* ===================================================================== *)

(** A JavaScript error object, as far as the sources read it. *)
Record JsError := { err_name : string; err_message : string }.

(** [new Error(msg)] *)
Definition Error (msg : string) : JsError :=
  {| err_name := "Error"; err_message := msg |}.

(** How the evaluation of a statement ends. *)
Inductive completion (A : Type) : Type :=
| Normal (a : A)
| Throw (e : JsError)
| Return.
Arguments Normal {A} a.
Arguments Throw {A} e.
Arguments Return {A}.

(** A statement over a store [S]. *)
Definition M (S A : Type) : Type := S → S * completion A.

#[global] Instance M_ret {S} : MRet (M S) := λ A a s, (s, Normal a).

#[global] Instance M_bind {S} : MBind (M S) := λ A B f m s,
  match m s with
  | (s', Normal a) => f a s'
  | (s', Throw e) => (s', Throw e)
  | (s', Return) => (s', Return)
  end.

Definition get {S} : M S S := λ s, (s, Normal s).
Definition modify {S} (f : S → S) : M S unit := λ s, (f s, Normal ()).
Definition throw {S A} (e : JsError) : M S A := λ s, (s, Throw e).
Definition early_return {S A} : M S A := λ s, (s, Return).

(** [try { body } catch (e) { handler e }] *)
Definition try_catch {S A} (body : M S A) (handler : JsError → M S A) : M S A := λ s,
  match body s with
  | (s', Throw e) => handler e s'
  | r => r
  end.

(** [try { body } finally { fin }]: [fin] runs however [body] ends, and the
    completion of [body] stands unless [fin] ends abruptly itself. *)
Definition try_finally {S A} (body : M S A) (fin : M S unit) : M S A := λ s,
  match body s with
  | (s', c) =>
      match fin s' with
      | (s'', Normal _) => (s'', c)
      | (s'', Throw e) => (s'', Throw e)
      | (s'', Return) => (s'', Return)
      end
  end.

(** A statement over a part of the store. *)
Definition zoom {S T A} (proj : S → T) (inj : T → S → S) (m : M T A) : M S A := λ s,
  match m (proj s) with (t', c) => (inj t' s, c) end.

(** The store a handler leaves when it is called as an event handler: its
    result, a rejected promise included, is dropped. *)
Definition exec {S A} (m : M S A) (s : S) : S := (m s).1.

(* ===================================================================== *)
(** ** The data model ([types.ts]) and the platform's objects             *)
(* ===================================================================== *)

Inductive RecorderState := IDLE | PREPARING | RECORDING | PAUSED | PROCESSING.

Inductive TrackKind := AudioTrack | VideoTrack.

#[global] Instance TrackKind_eq_dec : EqDecision TrackKind.
Proof. solve_decision. Defined.

(** A [MediaStreamTrack]; [track_id] names it in the platform's record of the
    tracks that were stopped. *)
Record MediaStreamTrack := { track_id : nat; kind : TrackKind }.

(** A [MediaStream] is the list of its tracks. *)
Abbreviation MediaStream := (list MediaStreamTrack).

Definition getTracks (s : MediaStream) : MediaStream := s.
Definition getAudioTracks (s : MediaStream) : MediaStream :=
  filter (λ t, kind t = AudioTrack) s.
Definition getVideoTracks (s : MediaStream) : MediaStream :=
  filter (λ t, kind t = VideoTrack) s.

(** What is mixed into the recorded stream. *)
Inductive AudioSource := SystemAudio | Microphone.

(** A [Blob]: its size in bytes, its MIME type, and the audio sources mixed
    into its content. *)
Record Blob := { blob_size : nat; blob_type : string; blob_audio : list AudioSource }.

(** [new Blob(chunks, { type })] *)
Definition newBlob (chunks : list Blob) (type : string) : Blob :=
  {| blob_size := sum_list (blob_size <$> chunks);
     blob_type := type;
     blob_audio := concat (blob_audio <$> chunks) |}.

(** [interface Recording] *)
Record Recording := {
  id : string;
  blob : Blob;
  url : string;
  timestamp : N;
  duration : nat; (* in seconds *)
  name : string;
  transcription : option string;
  summary : option string;
}.

(** [{ ...r, transcription, summary }] *)
Definition with_analysis (r : Recording) (t s : string) : Recording :=
  {| id := id r; blob := blob r; url := url r; timestamp := timestamp r;
     duration := duration r; name := name r;
     transcription := Some t; summary := Some s |}.

(** What the platform did for the program, in order of occurrence. *)
Inductive Effect :=
| ConsoleWarn (what : string) (e : JsError)
| ConsoleError (what : string) (e : JsError)
| Alert (msg : string)
| ReadAsDataURL (b : Blob)
| GenerateContent (apiKey model mimeType : string) (data : option string) (prompt : string).

Definition perform (e : Effect) : M (list Effect) unit := modify (λ log, log ++ [e]).

(* ===================================================================== *)
(** ** [src/services/geminiService.ts]                                    *)
(* ===================================================================== *)

Module GeminiService.

(** What the platform answers during one call of [analyzeAudio]. *)
Record Env := {
  (** [process.env.API_KEY]: undefined, or a string *)
  API_KEY : option string;
  (** the [FileReader]: an error, or [reader.result], a data URL *)
  fileReader : JsError + string;
  (** [ai.models.generateContent]: rejected, or a response whose [text] is
      undefined or a string *)
  remote : JsError + option string;
}.

(** [{ transcription, summary }] *)
Record Analysis := { a_transcription : string; a_summary : string }.

(** [s.split(',')[0]] *)
Fixpoint before_comma (s : string) : string :=
  match s with
  | EmptyString => EmptyString
  | String c s' => if Ascii.eqb c "," then EmptyString else String c (before_comma s')
  end.

(** [s.split(',')[1]]: undefined when [s] has no comma. *)
Fixpoint split_comma_1 (s : string) : option string :=
  match s with
  | EmptyString => None
  | String c s' => if Ascii.eqb c "," then Some (before_comma s') else split_comma_1 s'
  end.

(** Converts a Blob to a Base64 string. *)
Definition blobToBase64 (env : Env) (blob : Blob) : M (list Effect) (option string) :=
  perform (ReadAsDataURL blob);;
  match fileReader env with
  | inl e => throw e
  | inr result => mret (split_comma_1 result)
  end.

Definition prompt : string := "
      You are an expert meeting secretary. 
      1. Transcribe the following audio meeting recording accurately. Identify different speakers if possible (e.g., Speaker 1, Speaker 2).
      2. Provide a concise bullet-point summary of the key discussion points and action items.
      
      Output Format:
      ## Transcription
      [Full transcription here]

      ## Summary
      [Summary here]
    ".

(** [!apiKey || apiKey === ""] *)
Definition key_missing (apiKey : option string) : bool :=
  match apiKey with
  | None => true
  | Some k => negb (Js.truthy k) || bool_decide (k = "")
  end.

(** Lines 63-78 of [analyzeAudio]: the two sections of the response text. *)
Definition sections (response_text : option string) : Analysis :=
  let text := match response_text with Some t => Js.or_else t "" | None => "" end in
  let summaryIndex := Js.indexOf text "## Summary" in
  match summaryIndex with
  | Some i =>
      {| a_transcription := Js.trim (Js.replace (Js.substring text 0 i) "## Transcription" "");
         a_summary := Js.trim (Js.replace (Js.substringFrom text i) "## Summary" "") |}
  | None =>
      {| a_transcription := text;
         a_summary := "Could not generate structured summary." |}
  end.

Definition analyzeAudio (env : Env) (audioBlob : Blob) : M (list Effect) Analysis :=
  try_catch
    (let apiKey := API_KEY env in
     if key_missing apiKey
     then throw (Error "API Key is missing. Please ensure your API key is configured.")
     else
       let key := match apiKey with Some k => k | None => "" end in
       base64Audio ← blobToBase64 env audioBlob;
       let model := "gemini-2.5-flash" in
       perform (GenerateContent key model (Js.or_else (blob_type audioBlob) "audio/webm")
                  base64Audio prompt);;
       match remote env with
       | inl e => throw e
       | inr response_text => mret (sections response_text)
       end)
    (λ error,
       perform (ConsoleError "Error analyzing audio with Gemini:" error);;
       throw error).

End GeminiService.

(* ===================================================================== *)
(** ** The component's store, shared by the two application components    *)
(* ===================================================================== *)

(** [recorder.state] *)
Inductive RecordingState := st_inactive | st_recording | st_paused.

#[global] Instance RecordingState_eq_dec : EqDecision RecordingState.
Proof. solve_decision. Defined.

(** The [MediaRecorder] of a session together with what its handlers close
    over. *)
Record MediaRecorder := {
  mr_state : RecordingState;
  (** the [mimeType] the recorder was constructed with *)
  mr_mimeType : string;
  (** the sources connected to the destination whose stream is recorded *)
  mr_inputs : list AudioSource;
  (** the array [chunks] of [ondataavailable] and [onstop] *)
  chunks : list Blob;
  (** the constant [timer] that [onstop] closes over: the state variable
      of the render whose [startRecording] created the recorder *)
  onstop_timer : nat;
}.

(** [audioContext.state], as far as the sources test it. *)
Inductive AudioContextState := ctx_open | ctx_closed.

(** The state variables and references of the component [App], with the
    part of the platform its handlers act on.  [includeMic] and
    [activeStreams] belong to [part_001] only, [systemStreamRef] to
    [part_002] only. *)
Record App := {
  (* useState *)
  recorderState : RecorderState;
  recordings : list Recording;
  timer : nat;
  errorMsg : option string;
  processingIds : gset string;
  includeMic : bool;
  (* useRef *)
  mediaRecorderRef : option MediaRecorder;
  audioContextRef : option AudioContextState;
  mixedStreamRef : option MediaStream;
  systemStreamRef : option MediaStream;
  timerIntervalRef : option nat;
  activeStreams : list MediaStream;
  (* the platform: tracks that were stopped, video tracks whose [onended]
     calls [stopRecording], live intervals, and what else was done *)
  endedTracks : gset nat;
  onended : gset nat;
  intervals : gset nat;
  effects : list Effect;
}.

(** One updater for each field. *)
Definition upd_recorderState (f : RecorderState → RecorderState) (st : App) : App :=
  {| recorderState := f (recorderState st); recordings := recordings st;
     timer := timer st; errorMsg := errorMsg st; processingIds := processingIds st;
     includeMic := includeMic st; mediaRecorderRef := mediaRecorderRef st;
     audioContextRef := audioContextRef st; mixedStreamRef := mixedStreamRef st;
     systemStreamRef := systemStreamRef st; timerIntervalRef := timerIntervalRef st;
     activeStreams := activeStreams st; endedTracks := endedTracks st;
     onended := onended st; intervals := intervals st; effects := effects st |}.

Definition upd_recordings (f : list Recording → list Recording) (st : App) : App :=
  {| recorderState := recorderState st; recordings := f (recordings st);
     timer := timer st; errorMsg := errorMsg st; processingIds := processingIds st;
     includeMic := includeMic st; mediaRecorderRef := mediaRecorderRef st;
     audioContextRef := audioContextRef st; mixedStreamRef := mixedStreamRef st;
     systemStreamRef := systemStreamRef st; timerIntervalRef := timerIntervalRef st;
     activeStreams := activeStreams st; endedTracks := endedTracks st;
     onended := onended st; intervals := intervals st; effects := effects st |}.

Definition upd_timer (f : nat → nat) (st : App) : App :=
  {| recorderState := recorderState st; recordings := recordings st;
     timer := f (timer st); errorMsg := errorMsg st; processingIds := processingIds st;
     includeMic := includeMic st; mediaRecorderRef := mediaRecorderRef st;
     audioContextRef := audioContextRef st; mixedStreamRef := mixedStreamRef st;
     systemStreamRef := systemStreamRef st; timerIntervalRef := timerIntervalRef st;
     activeStreams := activeStreams st; endedTracks := endedTracks st;
     onended := onended st; intervals := intervals st; effects := effects st |}.

Definition upd_errorMsg (f : option string → option string) (st : App) : App :=
  {| recorderState := recorderState st; recordings := recordings st; timer := timer st;
     errorMsg := f (errorMsg st); processingIds := processingIds st;
     includeMic := includeMic st; mediaRecorderRef := mediaRecorderRef st;
     audioContextRef := audioContextRef st; mixedStreamRef := mixedStreamRef st;
     systemStreamRef := systemStreamRef st; timerIntervalRef := timerIntervalRef st;
     activeStreams := activeStreams st; endedTracks := endedTracks st;
     onended := onended st; intervals := intervals st; effects := effects st |}.

Definition upd_processingIds (f : gset string → gset string) (st : App) : App :=
  {| recorderState := recorderState st; recordings := recordings st; timer := timer st;
     errorMsg := errorMsg st; processingIds := f (processingIds st);
     includeMic := includeMic st; mediaRecorderRef := mediaRecorderRef st;
     audioContextRef := audioContextRef st; mixedStreamRef := mixedStreamRef st;
     systemStreamRef := systemStreamRef st; timerIntervalRef := timerIntervalRef st;
     activeStreams := activeStreams st; endedTracks := endedTracks st;
     onended := onended st; intervals := intervals st; effects := effects st |}.

Definition upd_includeMic (f : bool → bool) (st : App) : App :=
  {| recorderState := recorderState st; recordings := recordings st; timer := timer st;
     errorMsg := errorMsg st; processingIds := processingIds st;
     includeMic := f (includeMic st); mediaRecorderRef := mediaRecorderRef st;
     audioContextRef := audioContextRef st; mixedStreamRef := mixedStreamRef st;
     systemStreamRef := systemStreamRef st; timerIntervalRef := timerIntervalRef st;
     activeStreams := activeStreams st; endedTracks := endedTracks st;
     onended := onended st; intervals := intervals st; effects := effects st |}.

Definition upd_mediaRecorderRef (f : option MediaRecorder → option MediaRecorder) (st : App) : App :=
  {| recorderState := recorderState st; recordings := recordings st; timer := timer st;
     errorMsg := errorMsg st; processingIds := processingIds st;
     includeMic := includeMic st; mediaRecorderRef := f (mediaRecorderRef st);
     audioContextRef := audioContextRef st; mixedStreamRef := mixedStreamRef st;
     systemStreamRef := systemStreamRef st; timerIntervalRef := timerIntervalRef st;
     activeStreams := activeStreams st; endedTracks := endedTracks st;
     onended := onended st; intervals := intervals st; effects := effects st |}.

Definition upd_audioContextRef (f : option AudioContextState → option AudioContextState) (st : App) : App :=
  {| recorderState := recorderState st; recordings := recordings st; timer := timer st;
     errorMsg := errorMsg st; processingIds := processingIds st;
     includeMic := includeMic st; mediaRecorderRef := mediaRecorderRef st;
     audioContextRef := f (audioContextRef st); mixedStreamRef := mixedStreamRef st;
     systemStreamRef := systemStreamRef st; timerIntervalRef := timerIntervalRef st;
     activeStreams := activeStreams st; endedTracks := endedTracks st;
     onended := onended st; intervals := intervals st; effects := effects st |}.

Definition upd_mixedStreamRef (f : option MediaStream → option MediaStream) (st : App) : App :=
  {| recorderState := recorderState st; recordings := recordings st; timer := timer st;
     errorMsg := errorMsg st; processingIds := processingIds st;
     includeMic := includeMic st; mediaRecorderRef := mediaRecorderRef st;
     audioContextRef := audioContextRef st; mixedStreamRef := f (mixedStreamRef st);
     systemStreamRef := systemStreamRef st; timerIntervalRef := timerIntervalRef st;
     activeStreams := activeStreams st; endedTracks := endedTracks st;
     onended := onended st; intervals := intervals st; effects := effects st |}.

Definition upd_systemStreamRef (f : option MediaStream → option MediaStream) (st : App) : App :=
  {| recorderState := recorderState st; recordings := recordings st; timer := timer st;
     errorMsg := errorMsg st; processingIds := processingIds st;
     includeMic := includeMic st; mediaRecorderRef := mediaRecorderRef st;
     audioContextRef := audioContextRef st; mixedStreamRef := mixedStreamRef st;
     systemStreamRef := f (systemStreamRef st);
     timerIntervalRef := timerIntervalRef st; activeStreams := activeStreams st;
     endedTracks := endedTracks st; onended := onended st; intervals := intervals st;
     effects := effects st |}.

Definition upd_timerIntervalRef (f : option nat → option nat) (st : App) : App :=
  {| recorderState := recorderState st; recordings := recordings st; timer := timer st;
     errorMsg := errorMsg st; processingIds := processingIds st;
     includeMic := includeMic st; mediaRecorderRef := mediaRecorderRef st;
     audioContextRef := audioContextRef st; mixedStreamRef := mixedStreamRef st;
     systemStreamRef := systemStreamRef st;
     timerIntervalRef := f (timerIntervalRef st); activeStreams := activeStreams st;
     endedTracks := endedTracks st; onended := onended st; intervals := intervals st;
     effects := effects st |}.

Definition upd_activeStreams (f : list MediaStream → list MediaStream) (st : App) : App :=
  {| recorderState := recorderState st; recordings := recordings st; timer := timer st;
     errorMsg := errorMsg st; processingIds := processingIds st;
     includeMic := includeMic st; mediaRecorderRef := mediaRecorderRef st;
     audioContextRef := audioContextRef st; mixedStreamRef := mixedStreamRef st;
     systemStreamRef := systemStreamRef st; timerIntervalRef := timerIntervalRef st;
     activeStreams := f (activeStreams st); endedTracks := endedTracks st;
     onended := onended st; intervals := intervals st; effects := effects st |}.

Definition upd_endedTracks (f : gset nat → gset nat) (st : App) : App :=
  {| recorderState := recorderState st; recordings := recordings st; timer := timer st;
     errorMsg := errorMsg st; processingIds := processingIds st;
     includeMic := includeMic st; mediaRecorderRef := mediaRecorderRef st;
     audioContextRef := audioContextRef st; mixedStreamRef := mixedStreamRef st;
     systemStreamRef := systemStreamRef st; timerIntervalRef := timerIntervalRef st;
     activeStreams := activeStreams st; endedTracks := f (endedTracks st);
     onended := onended st; intervals := intervals st; effects := effects st |}.

Definition upd_onended (f : gset nat → gset nat) (st : App) : App :=
  {| recorderState := recorderState st; recordings := recordings st; timer := timer st;
     errorMsg := errorMsg st; processingIds := processingIds st;
     includeMic := includeMic st; mediaRecorderRef := mediaRecorderRef st;
     audioContextRef := audioContextRef st; mixedStreamRef := mixedStreamRef st;
     systemStreamRef := systemStreamRef st; timerIntervalRef := timerIntervalRef st;
     activeStreams := activeStreams st; endedTracks := endedTracks st;
     onended := f (onended st); intervals := intervals st; effects := effects st |}.

Definition upd_intervals (f : gset nat → gset nat) (st : App) : App :=
  {| recorderState := recorderState st; recordings := recordings st; timer := timer st;
     errorMsg := errorMsg st; processingIds := processingIds st;
     includeMic := includeMic st; mediaRecorderRef := mediaRecorderRef st;
     audioContextRef := audioContextRef st; mixedStreamRef := mixedStreamRef st;
     systemStreamRef := systemStreamRef st; timerIntervalRef := timerIntervalRef st;
     activeStreams := activeStreams st; endedTracks := endedTracks st;
     onended := onended st; intervals := f (intervals st); effects := effects st |}.

Definition upd_effects (f : list Effect → list Effect) (st : App) : App :=
  {| recorderState := recorderState st; recordings := recordings st; timer := timer st;
     errorMsg := errorMsg st; processingIds := processingIds st;
     includeMic := includeMic st; mediaRecorderRef := mediaRecorderRef st;
     audioContextRef := audioContextRef st; mixedStreamRef := mixedStreamRef st;
     systemStreamRef := systemStreamRef st; timerIntervalRef := timerIntervalRef st;
     activeStreams := activeStreams st; endedTracks := endedTracks st;
     onended := onended st; intervals := intervals st; effects := f (effects st) |}.

(** *** The setters of the state variables *)

Definition setRecorderState (v : RecorderState) : M App unit :=
  modify (upd_recorderState (λ _, v)).
Definition setRecordings (f : list Recording → list Recording) : M App unit :=
  modify (upd_recordings f).
Definition setTimer (f : nat → nat) : M App unit := modify (upd_timer f).
Definition setErrorMsg (v : option string) : M App unit := modify (upd_errorMsg (λ _, v)).
Definition setProcessingIds (f : gset string → gset string) : M App unit :=
  modify (upd_processingIds f).

(** *** The platform's operations *)

(** [stream.getTracks().forEach(track => track.stop())] *)
Definition stop_tracks (s : MediaStream) : M App unit :=
  modify (upd_endedTracks (λ ended, ended ∪ list_to_set (track_id <$> getTracks s))).

(** [if (audioContextRef.current && audioContextRef.current.state !== 'closed')
      audioContextRef.current.close()] *)
Definition close_audioContext : M App unit :=
  modify (upd_audioContextRef (λ ref,
    match ref with
    | Some ctx_open => Some ctx_closed
    | other => other
    end)).

(** [if (timerIntervalRef.current) clearInterval(timerIntervalRef.current)];
    the identifier 0 is falsy. *)
Definition clear_timerInterval : M App unit :=
  st ← get;
  match timerIntervalRef st with
  | Some (S n) => modify (upd_intervals (λ live, live ∖ {[S n]}))
  | _ => mret ()
  end.

Definition app_perform (e : Effect) : M App unit := modify (upd_effects (λ log, log ++ [e])).

(** The display stream the platform grants: one video track, and the audio
    tracks the user chose to share. *)
Definition display_stream (video : nat) (audio : list nat) : MediaStream :=
  {| track_id := video; kind := VideoTrack |}
  :: ((λ i, {| track_id := i; kind := AudioTrack |}) <$> audio).

Definition microphone_stream (audio : list nat) : MediaStream :=
  (λ i, {| track_id := i; kind := AudioTrack |}) <$> audio.

(** What [navigator.mediaDevices.getDisplayMedia] does: it resolves with a
    stream, rejects, or is not there at all. *)
Inductive DisplayCapture :=
| DisplayGranted (video : nat) (audio : list nat)
| DisplayRejected (e : JsError)
| DisplayUnsupported.

Inductive MicCapture :=
| MicGranted (audio : list nat)
| MicRejected (e : JsError).

(** What the platform answers during one call of [startRecording]. *)
Record StartEnv := {
  getDisplayMedia : DisplayCapture;
  getUserMedia : MicCapture;
  (** [MediaRecorder.isTypeSupported] *)
  isTypeSupported : string → bool;
  (** the track of [destination.stream] *)
  destinationTrack : nat;
  (** the identifier [window.setInterval] returns *)
  setInterval : nat;
}.

(** What the platform answers while a recorder stops: the data gathered since
    the last chunk, [recorder.mimeType], the object URL, and each reading of
    the clock ([Date.now()] twice, [new Date()] three times in [part_001],
    once in [part_002]). *)
Record StopEnv := {
  lastData : nat;
  negotiated : string;
  createObjectURL : string;
  now_id : N;
  now_timestamp : N;
  toISOString : string;
  getHours : nat;
  getMinutes : nat;
  toLocaleString : string;
}.

(** *** Handlers the two components share word for word *)

(** [recorder.ondataavailable]: [if (e.data.size > 0) chunks.push(e.data)].
    The recorder of a session is the one [mediaRecorderRef] holds: a session
    starts only when the component is not recording. *)
Definition ondataavailable (data : Blob) : M App unit :=
  if 0 <? blob_size data
  then modify (upd_mediaRecorderRef (fmap (λ r,
         {| mr_state := mr_state r; mr_mimeType := mr_mimeType r;
            mr_inputs := mr_inputs r; chunks := chunks r ++ [data];
            onstop_timer := onstop_timer r |})))
  else mret ().

(** The data the platform hands to [ondataavailable]: [n] bytes recorded from
    the recorder's stream. *)
Definition recorded (r : MediaRecorder) (n : nat) : Blob :=
  {| blob_size := n; blob_type := mr_mimeType r; blob_audio := mr_inputs r |}.

(** [recorder.stop()], the call: the recorder becomes inactive. *)
Definition recorder_stop : M App unit :=
  modify (upd_mediaRecorderRef (fmap (λ r,
    {| mr_state := st_inactive; mr_mimeType := mr_mimeType r;
       mr_inputs := mr_inputs r; chunks := chunks r;
       onstop_timer := onstop_timer r |}))).

(** What the platform does once the caller of [recorder.stop()] has returned:
    it hands over the data gathered since the last chunk, then fires [stop]. *)
Definition recorder_stopped (onstop : StopEnv → MediaRecorder → M App unit)
    (env : StopEnv) : M App unit :=
  st ← get;
  match mediaRecorderRef st with
  | Some r =>
      ondataavailable (recorded r (lastData env));;
      st' ← get;
      match mediaRecorderRef st' with
      | Some r' => onstop env r'
      | None => mret ()
      end
  | None => mret ()
  end.

(** The interval's callback: [setTimer(t => t + 1)]. *)
Definition tick : M App unit := setTimer (λ t, t + 1).

(** [handleDelete] *)
Definition handleDelete (target : string) : M App unit :=
  setRecordings (λ prev, filter (λ r, id r ≠ target) prev).

(** [handleAnalyze]; the two components differ in the text of the alert. *)
Definition handleAnalyze (alert_text : string) (target : string)
    (env : GeminiService.Env) : M App unit :=
  st ← get;
  match List.find (λ r, bool_decide (id r = target)) (recordings st) with
  | None => early_return
  | Some recording =>
      setProcessingIds (λ prev, prev ∪ {[target]});;
      try_finally
        (try_catch
           (a ← zoom effects (λ log, upd_effects (λ _, log))
                  (GeminiService.analyzeAudio env (blob recording));
            setRecordings (λ prev,
              (λ r, if bool_decide (id r = target)
                    then with_analysis r (GeminiService.a_transcription a)
                                         (GeminiService.a_summary a)
                    else r) <$> prev))
           (λ e, app_perform (Alert alert_text)))
        (setProcessingIds (λ prev, prev ∖ {[target]}))
  end.

(** The [TypeError] of [undefined.onended = ...]; the text of the message is
    the engine's. *)
Definition TypeError_onended : JsError :=
  {| err_name := "TypeError";
     err_message := "Cannot set properties of undefined (setting 'onended')" |}.

(** The [TypeError] of calling [getDisplayMedia] where the platform has none. *)
Definition TypeError_getDisplayMedia : JsError :=
  {| err_name := "TypeError";
     err_message := "navigator.mediaDevices.getDisplayMedia is not a function" |}.

(** [recorder.start(1000)] on a new [MediaRecorder] over the destination's
    stream.  Constructing and starting the platform's recorder is taken to
    succeed. *)
Definition new_started_recorder (mimeType : string) (inputs : list AudioSource)
    (timer_of_render : nat) : MediaRecorder :=
  {| mr_state := st_recording; mr_mimeType := mimeType; mr_inputs := inputs;
     chunks := []; onstop_timer := timer_of_render |}.

(** [timerIntervalRef.current = window.setInterval(..., 1000)] *)
Definition start_timerInterval (env : StartEnv) : M App unit :=
  modify (upd_intervals (λ live, live ∪ {[setInterval env]}));;
  modify (upd_timerIntervalRef (λ _, Some (setInterval env))).

(** The events of the page: the user's clicks and the platform's callbacks. *)
Inductive Event :=
| ClickStart (env : StartEnv)
| ClickStop (env : StopEnv)
| ToggleMic (checked : bool)
| ClickDelete (target : string)
| ClickAnalyze (target : string) (env : GeminiService.Env)
| VideoTrackEnded (track : nat) (env : StopEnv)
| IntervalFires (interval : nat)
| DataAvailable (n : nat).

(** [!x] for an optional string: undefined and the empty string are falsy. *)
Definition falsy (x : option string) : Prop :=
  match x with None => True | Some s => Js.truthy s = false end.

#[global] Instance falsy_dec x : Decision (falsy x).
Proof. destruct x; simpl; apply _. Defined.

(** The component as mounted: the initial values of [useState] and [useRef]
    ([includeMic] starts checked in [part_001]). *)
Definition mounted : App :=
  {| recorderState := IDLE; recordings := []; timer := 0; errorMsg := None;
     processingIds := ∅; includeMic := true;
     mediaRecorderRef := None; audioContextRef := None; mixedStreamRef := None;
     systemStreamRef := None; timerIntervalRef := None; activeStreams := [];
     endedTracks := ∅; onended := ∅; intervals := ∅; effects := [] |}.

(* ===================================================================== *)
(** ** [src/unnamed/part_001]: the component with the optional microphone *)
(* ===================================================================== *)

Module App1.

Definition cleanup : M App unit :=
  st ← get;
  stop_tracks (concat (activeStreams st));;
  modify (upd_activeStreams (λ _, []));;
  close_audioContext;;
  clear_timerInterval.

Definition supportedTypes : list string :=
  ["audio/mp4"; "video/mp4;codecs=avc1"; "audio/webm;codecs=opus"].

(** [recorder.onstop] *)
Definition onstop (env : StopEnv) (recorder : MediaRecorder) : M App unit :=
  let finalType := if Js.includes (negotiated env) "mp4" then "video/mp4" else "audio/webm" in
  let blob0 := newBlob (chunks recorder) finalType in
  let extension := if Js.includes finalType "mp4" then "mp4" else "webm" in
  let url0 := createObjectURL env in
  let newRecording :=
    {| id := Js.toStringN (now_id env);
       blob := blob0;
       url := url0;
       timestamp := now_timestamp env;
       duration := onstop_timer recorder;
       name := "Meeting_" +:+ Js.slice (toISOString env) 0 10 +:+ "_"
               +:+ Js.toString (getHours env) +:+ Js.toString (getMinutes env)
               +:+ "." +:+ extension;
       transcription := None;
       summary := None |} in
  setRecordings (λ prev, newRecording :: prev);;
  setRecorderState IDLE;;
  setTimer (λ _, 0);;
  cleanup.

Definition stopRecording (env : StopEnv) : M App unit :=
  st ← get;
  match mediaRecorderRef st with
  | Some r =>
      if bool_decide (mr_state r ≠ st_inactive)
      then recorder_stop;; recorder_stopped onstop env
      else mret ()
  | None => mret ()
  end.

Definition startRecording (env : StartEnv) : M App unit :=
  (* the constants [timer] and [includeMic] of the render *)
  render ← get;
  setErrorMsg None;;
  setRecorderState PREPARING;;
  cleanup;;
  try_catch
    ((* const destination = audioCtx.createMediaStreamDestination() *)
     let destination : list AudioSource := [] in
     (* 1. Capture System Audio (Teams/Zoom) *)
     destination ←
       try_catch
         (match getDisplayMedia env with
          | DisplayUnsupported => throw TypeError_getDisplayMedia
          | DisplayRejected e => throw e
          | DisplayGranted video audio =>
              let systemStream := display_stream video audio in
              (if bool_decide (length (getAudioTracks systemStream) = 0)
               then
                 stop_tracks systemStream;;
                 throw (Error "Please check 'Share Audio' in the browser popup to record Teams audio.")
               else mret ());;
              let destination := destination ++ [SystemAudio] in
              modify (upd_activeStreams (λ active, active ++ [systemStream]));;
              match getVideoTracks systemStream with
              | [] => throw TypeError_onended
              | track :: _ => modify (upd_onended (λ h, h ∪ {[track_id track]}))
              end;;
              mret destination
          end)
         (λ e,
            if bool_decide (err_name e = "NotAllowedError")
            then setRecorderState IDLE;; early_return
            else throw e);
     (* 2. Capture Microphone (Bluetooth Mic) *)
     destination ←
       (if includeMic render
        then
          try_catch
            (match getUserMedia env with
             | MicRejected e => throw e
             | MicGranted audio =>
                 let micStream := microphone_stream audio in
                 let destination := destination ++ [Microphone] in
                 modify (upd_activeStreams (λ active, active ++ [micStream]));;
                 mret destination
             end)
            (λ e, app_perform (ConsoleWarn "Microphone access denied" e);; mret destination)
        else mret destination);
     modify (upd_audioContextRef (λ _, Some ctx_open));;
     modify (upd_mixedStreamRef (λ _,
       Some [ {| track_id := destinationTrack env; kind := AudioTrack |} ]));;
     (* 3. Setup MediaRecorder with MP4 preference *)
     let mimeType :=
       match List.find (isTypeSupported env) supportedTypes with
       | Some type => type
       | None => "audio/webm"
       end in
     let recorder := new_started_recorder mimeType destination (timer render) in
     modify (upd_mediaRecorderRef (λ _, Some recorder));;
     setRecorderState RECORDING;;
     setTimer (λ _, 0);;
     start_timerInterval env)
    (λ err,
       setErrorMsg (Some (Js.or_else (err_message err) "Failed to start recording"));;
       setRecorderState IDLE;;
       cleanup).

Definition handleDelete := handleDelete.

Definition handleAnalyze :=
  handleAnalyze "AI analysis failed. Check your connection or API Key.".

(** What the page lets happen in a state, and the handler it runs. *)
Definition dispatch (ev : Event) (st : App) : App :=
  match ev with
  | ClickStart env =>
      (* the button is rendered unless recording, and disabled while preparing *)
      match recorderState st with
      | RECORDING | PREPARING => st
      | _ => exec (startRecording env) st
      end
  | ClickStop env =>
      match recorderState st with
      | RECORDING => exec (stopRecording env) st
      | _ => st
      end
  | ToggleMic checked =>
      match recorderState st with
      | IDLE => upd_includeMic (λ _, checked) st
      | _ => st
      end
  | ClickDelete target =>
      if bool_decide (target ∈ id <$> recordings st)
      then exec (handleDelete target) st else st
  | ClickAnalyze target env =>
      (* the button is rendered when [!rec.transcription], and disabled while
         the identifier is marked as processing *)
      if bool_decide (Exists (λ r, id r = target ∧ falsy (transcription r)) (recordings st)
                      ∧ target ∉ processingIds st)
      then exec (handleAnalyze target env) st else st
  | VideoTrackEnded track env =>
      (* [onended] fires when the platform ends the track, not on [stop()] *)
      if bool_decide (track ∈ onended st ∧ track ∉ endedTracks st)
      then exec (stopRecording env) (upd_endedTracks (λ ended, ended ∪ {[track]}) st)
      else st
  | IntervalFires interval =>
      if bool_decide (interval ∈ intervals st) then exec tick st else st
  | DataAvailable n =>
      match mediaRecorderRef st with
      | Some r =>
          if bool_decide (mr_state r = st_recording)
          then exec (ondataavailable (recorded r n)) st else st
      | None => st
      end
  end.

(** A run of the page from a state, event by event. *)
Definition run (evs : list Event) (st : App) : App := foldl (λ s ev, dispatch ev s) st evs.

End App1.

(* ===================================================================== *)
(** ** [src/unnamed/part_002]: the component that records display audio   *)
(* ===================================================================== *)

Module App2.

(** Cleanup function *)
Definition stopStreams : M App unit :=
  st ← get;
  match systemStreamRef st with
  | Some stream => stop_tracks stream
  | None => mret ()
  end;;
  match mixedStreamRef st with
  | Some stream => stop_tracks stream
  | None => mret ()
  end;;
  close_audioContext.

(** [recorder.onstop]; [mimeType] is the constant the handler closes over. *)
Definition onstop (env : StopEnv) (recorder : MediaRecorder) : M App unit :=
  let blob0 := newBlob (chunks recorder) (mr_mimeType recorder) in
  let url0 := createObjectURL env in
  let newRecording :=
    {| id := Js.toStringN (now_id env);
       blob := blob0;
       url := url0;
       timestamp := now_timestamp env;
       duration := onstop_timer recorder;
       name := "Meeting " +:+ toLocaleString env;
       transcription := None;
       summary := None |} in
  setRecordings (λ prev, newRecording :: prev);;
  setRecorderState IDLE;;
  setTimer (λ _, 0);;
  stopStreams.

Definition stopRecording (env : StopEnv) : M App unit :=
  st ← get;
  match mediaRecorderRef st with
  | Some r => if bool_decide (mr_state r ≠ st_inactive) then recorder_stop else mret ()
  | None => mret ()
  end;;
  clear_timerInterval;;
  (* the handler has returned; the platform fires the recorder's events *)
  match mediaRecorderRef st with
  | Some r => if bool_decide (mr_state r ≠ st_inactive) then recorder_stopped onstop env else mret ()
  | None => mret ()
  end.

Definition startRecording (env : StartEnv) : M App unit :=
  (* the constant [timer] of the render *)
  render ← get;
  setErrorMsg None;;
  setRecorderState PREPARING;;
  try_catch
    ((* Browser support check *)
     match getDisplayMedia env with
     | DisplayUnsupported =>
         throw (Error "Your browser does not support screen audio recording. Please use Chrome, Edge, or Firefox.")
     | _ => mret ()
     end;;
     let destination : list AudioSource := [] in
     (* Get System Audio (Teams/Others) via Display Media *)
     destination ←
       try_catch
         (match getDisplayMedia env with
          | DisplayUnsupported => throw TypeError_getDisplayMedia
          | DisplayRejected e => throw e
          | DisplayGranted video audio =>
              let sysStream := display_stream video audio in
              (* We only need the audio track *)
              if bool_decide (0 < length (getAudioTracks sysStream))
              then
                modify (upd_systemStreamRef (λ _, Some sysStream));;
                let destination := destination ++ [SystemAudio] in
                (* If user stops sharing screen via browser UI, stop recording *)
                match getVideoTracks sysStream with
                | [] => throw TypeError_onended
                | track :: _ => modify (upd_onended (λ h, h ∪ {[track_id track]}))
                end;;
                mret destination
              else
                (* Specific error for desktop app usage *)
                let error := "No system audio detected. To record Teams Desktop, you MUST select 'Entire Screen' tab and check 'Share system audio'." in
                (* Clean up if they didn't share audio *)
                stop_tracks sysStream;;
                throw (Error error)
          end)
         (λ e,
            app_perform (ConsoleWarn "System audio selection cancelled or failed" e);;
            if bool_decide (err_name e = "NotAllowedError") || bool_decide (err_name e = "AbortError")
            then (* User cancelled popup *) setRecorderState IDLE;; early_return
            else if Js.truthy (err_message e) && Js.includes (err_message e) "permissions policy"
            then throw (Error "Browser Permission Blocked: This preview window does not allow screen recording. Please open this app in a new full browser tab/window to use it.")
            else if Js.truthy (err_message e) && Js.includes (err_message e) "No system audio"
            then throw e
            else throw (Error ("Could not start System Audio capture: " +:+ err_message e)));
     modify (upd_audioContextRef (λ _, Some ctx_open));;
     modify (upd_mixedStreamRef (λ _,
       Some [ {| track_id := destinationTrack env; kind := AudioTrack |} ]));;
     (* Start MediaRecorder *)
     let mimeType :=
       if isTypeSupported env "audio/webm;codecs=opus"
       then "audio/webm;codecs=opus"
       else "audio/webm" in
     let recorder := new_started_recorder mimeType destination (timer render) in
     modify (upd_mediaRecorderRef (λ _, Some recorder));;
     setRecorderState RECORDING;;
     (* Start Timer *)
     setTimer (λ _, 0);;
     start_timerInterval env)
    (λ err,
       app_perform (ConsoleError "" err);;
       setErrorMsg (Some (Js.or_else (err_message err) "Failed to start recording"));;
       setRecorderState IDLE;;
       stopStreams).

Definition handleDelete := handleDelete.

Definition handleAnalyze :=
  handleAnalyze "Failed to analyze audio. Please check your API Key.".

(** What the page lets happen in a state, and the handler it runs. *)
Definition dispatch (ev : Event) (st : App) : App :=
  match ev with
  | ClickStart env =>
      (* the button is rendered when idle or preparing, and disabled while preparing *)
      match recorderState st with
      | IDLE => exec (startRecording env) st
      | _ => st
      end
  | ClickStop env =>
      match recorderState st with
      | IDLE | PREPARING => st
      | _ => exec (stopRecording env) st
      end
  | ToggleMic _ => st
  | ClickDelete target =>
      if bool_decide (target ∈ id <$> recordings st)
      then exec (handleDelete target) st else st
  | ClickAnalyze target env =>
      (* the button is rendered when [!rec.transcription && !rec.summary], and
         disabled while the identifier is marked as processing *)
      if bool_decide (Exists (λ r, id r = target ∧ falsy (transcription r) ∧ falsy (summary r))
                        (recordings st)
                      ∧ target ∉ processingIds st)
      then exec (handleAnalyze target env) st else st
  | VideoTrackEnded track env =>
      if bool_decide (track ∈ onended st ∧ track ∉ endedTracks st)
      then exec (stopRecording env) (upd_endedTracks (λ ended, ended ∪ {[track]}) st)
      else st
  | IntervalFires interval =>
      if bool_decide (interval ∈ intervals st) then exec tick st else st
  | DataAvailable n =>
      match mediaRecorderRef st with
      | Some r =>
          if bool_decide (mr_state r = st_recording)
          then exec (ondataavailable (recorded r n)) st else st
      | None => st
      end
  end.

Definition run (evs : list Event) (st : App) : App := foldl (λ s ev, dispatch ev s) st evs.

End App2.

(* ===================================================================== *)
(** ** [formatTime], which the two components define word for word        *)
(* ===================================================================== *)

(** [s.padStart(targetLength, pad)] for a pad string of one character. *)
Definition padStart (s : string) (targetLength : nat) (pad : ascii) : string :=
  Nat.iter (targetLength - String.length s) (String pad) s.

(** Format timer *)
Definition formatTime (seconds : nat) : string :=
  let mins := seconds / 60 in      (* Math.floor(seconds / 60) *)
  let secs := seconds mod 60 in    (* seconds % 60 *)
  padStart (Js.toString mins) 2 "0" +:+ ":" +:+ padStart (Js.toString secs) 2 "0".

(* ===================================================================== *)
(** ** [src/unnamed/part_000]: the visualizer of the recorded audio       *)
(* ===================================================================== *)

#[global] Instance MediaStreamTrack_eq_dec : EqDecision MediaStreamTrack.
Proof. solve_decision. Defined.

Module AudioVisualizer.

(** A rectangle that [fillRect] has painted.  The numbers of [draw] are
    rationals here: each of them is a multiple of 1/32 below 2048, which the
    doubles of the language hold exactly. *)
Record Rect := { rect_x : Q; rect_y : Q; rect_w : Q; rect_h : Q }.

(** What the platform answers during one run of the effect or of [draw]. *)
Record DrawEnv := {
  (** whether [canvas.getContext('2d')] yields a context *)
  getContext : bool;
  (** the bytes [getByteFrequencyData] writes *)
  getByteFrequencyData : list nat;
  (** the identifier [requestAnimationFrame] returns *)
  requestAnimationFrame : nat;
}.

(** The references of the component, what the platform holds for it, and
    what React remembers of its effect. *)
Record Visualizer := {
  (** [canvasRef.current] is the canvas while the component is on the page *)
  canvasRef : bool;
  animationRef : option nat;
  audioContextRef : option AudioContextState;
  (** the analyser, by its [fftSize] *)
  analyserRef : option nat;
  sourceRef : option MediaStream;
  (** the audio contexts created and not closed *)
  open_contexts : nat;
  (** the calls of [close()] on a context that is closed already, each of
      them a rejected promise *)
  closed_twice : nat;
  (** the animation frames requested, neither run nor cancelled *)
  pending : gset nat;
  (** the rectangles painted since the last [clearRect] *)
  canvas : list Rect;
  (** the dependencies of the last run of the effect *)
  deps : option (option MediaStream * bool);
  (** whether the last run of the effect returned a cleanup *)
  has_cleanup : bool;
  (** whether the component has left the page *)
  gone : bool;
}.

Definition upd_canvasRef (f : bool → bool) (v : Visualizer) : Visualizer :=
  {| canvasRef := f (canvasRef v); animationRef := animationRef v;
     audioContextRef := audioContextRef v; analyserRef := analyserRef v;
     sourceRef := sourceRef v; open_contexts := open_contexts v;
     closed_twice := closed_twice v; pending := pending v; canvas := canvas v;
     deps := deps v; has_cleanup := has_cleanup v; gone := gone v |}.

Definition upd_animationRef (f : option nat → option nat) (v : Visualizer) : Visualizer :=
  {| canvasRef := canvasRef v; animationRef := f (animationRef v);
     audioContextRef := audioContextRef v; analyserRef := analyserRef v;
     sourceRef := sourceRef v; open_contexts := open_contexts v;
     closed_twice := closed_twice v; pending := pending v; canvas := canvas v;
     deps := deps v; has_cleanup := has_cleanup v; gone := gone v |}.

Definition upd_audioContextRef (f : option AudioContextState → option AudioContextState)
    (v : Visualizer) : Visualizer :=
  {| canvasRef := canvasRef v; animationRef := animationRef v;
     audioContextRef := f (audioContextRef v); analyserRef := analyserRef v;
     sourceRef := sourceRef v; open_contexts := open_contexts v;
     closed_twice := closed_twice v; pending := pending v; canvas := canvas v;
     deps := deps v; has_cleanup := has_cleanup v; gone := gone v |}.

Definition upd_analyserRef (f : option nat → option nat) (v : Visualizer) : Visualizer :=
  {| canvasRef := canvasRef v; animationRef := animationRef v;
     audioContextRef := audioContextRef v; analyserRef := f (analyserRef v);
     sourceRef := sourceRef v; open_contexts := open_contexts v;
     closed_twice := closed_twice v; pending := pending v; canvas := canvas v;
     deps := deps v; has_cleanup := has_cleanup v; gone := gone v |}.

Definition upd_sourceRef (f : option MediaStream → option MediaStream)
    (v : Visualizer) : Visualizer :=
  {| canvasRef := canvasRef v; animationRef := animationRef v;
     audioContextRef := audioContextRef v; analyserRef := analyserRef v;
     sourceRef := f (sourceRef v); open_contexts := open_contexts v;
     closed_twice := closed_twice v; pending := pending v; canvas := canvas v;
     deps := deps v; has_cleanup := has_cleanup v; gone := gone v |}.

Definition upd_open_contexts (f : nat → nat) (v : Visualizer) : Visualizer :=
  {| canvasRef := canvasRef v; animationRef := animationRef v;
     audioContextRef := audioContextRef v; analyserRef := analyserRef v;
     sourceRef := sourceRef v; open_contexts := f (open_contexts v);
     closed_twice := closed_twice v; pending := pending v; canvas := canvas v;
     deps := deps v; has_cleanup := has_cleanup v; gone := gone v |}.

Definition upd_closed_twice (f : nat → nat) (v : Visualizer) : Visualizer :=
  {| canvasRef := canvasRef v; animationRef := animationRef v;
     audioContextRef := audioContextRef v; analyserRef := analyserRef v;
     sourceRef := sourceRef v; open_contexts := open_contexts v;
     closed_twice := f (closed_twice v); pending := pending v; canvas := canvas v;
     deps := deps v; has_cleanup := has_cleanup v; gone := gone v |}.

Definition upd_pending (f : gset nat → gset nat) (v : Visualizer) : Visualizer :=
  {| canvasRef := canvasRef v; animationRef := animationRef v;
     audioContextRef := audioContextRef v; analyserRef := analyserRef v;
     sourceRef := sourceRef v; open_contexts := open_contexts v;
     closed_twice := closed_twice v; pending := f (pending v); canvas := canvas v;
     deps := deps v; has_cleanup := has_cleanup v; gone := gone v |}.

Definition upd_canvas (f : list Rect → list Rect) (v : Visualizer) : Visualizer :=
  {| canvasRef := canvasRef v; animationRef := animationRef v;
     audioContextRef := audioContextRef v; analyserRef := analyserRef v;
     sourceRef := sourceRef v; open_contexts := open_contexts v;
     closed_twice := closed_twice v; pending := pending v; canvas := f (canvas v);
     deps := deps v; has_cleanup := has_cleanup v; gone := gone v |}.

(** React records the dependencies of the run and whether it returned a
    cleanup. *)
Definition effect_ran (dependencies : option MediaStream * bool) (cleanup : bool)
    (v : Visualizer) : Visualizer :=
  {| canvasRef := canvasRef v; animationRef := animationRef v;
     audioContextRef := audioContextRef v; analyserRef := analyserRef v;
     sourceRef := sourceRef v; open_contexts := open_contexts v;
     closed_twice := closed_twice v; pending := pending v; canvas := canvas v;
     deps := Some dependencies; has_cleanup := cleanup; gone := gone v |}.

(** The component leaves the page: React detaches the canvas. *)
Definition left_the_page (v : Visualizer) : Visualizer :=
  {| canvasRef := false; animationRef := animationRef v;
     audioContextRef := audioContextRef v; analyserRef := analyserRef v;
     sourceRef := sourceRef v; open_contexts := open_contexts v;
     closed_twice := closed_twice v; pending := pending v; canvas := canvas v;
     deps := deps v; has_cleanup := false; gone := true |}.

(** *** The platform's operations *)

(** [audioContextRef.current.close()]: closing a context that is closed
    already rejects. *)
Definition close (v : Visualizer) : Visualizer :=
  match audioContextRef v with
  | Some ctx_open =>
      upd_open_contexts (λ n, n - 1) (upd_audioContextRef (λ _, Some ctx_closed) v)
  | Some ctx_closed => upd_closed_twice (λ n, n + 1) v
  | None => v
  end.

Definition cancelAnimationFrame (frame : nat) (v : Visualizer) : Visualizer :=
  upd_pending (λ frames, frames ∖ {[frame]}) v.

(** [if (animationRef.current) cancelAnimationFrame(animationRef.current)];
    the identifier 0 is falsy. *)
Definition cancel_animation (v : Visualizer) : Visualizer :=
  match animationRef v with
  | Some (S n) => cancelAnimationFrame (S n) v
  | _ => v
  end.

(** [ctx.clearRect(0, 0, canvas.width, canvas.height)] *)
Definition clearRect (v : Visualizer) : Visualizer := upd_canvas (λ _, []) v.

(** The attributes [width] and [height] of the canvas. *)
Definition width : Q := 600.
Definition height : Q := 150.

(** *** The component *)

(** The loop of [draw]: one bar for each byte, from [x] on.  The gradient
    the loop makes for each bar sets its colour only. *)
Fixpoint bars (dataArray : list nat) (barWidth x : Q) : list Rect :=
  match dataArray with
  | [] => []
  | byte :: rest =>
      let barHeight := (inject_Z (Z.of_nat byte) / 2)%Q in
      {| rect_x := x; rect_y := (height - barHeight)%Q; rect_w := barWidth;
         rect_h := barHeight |}
      :: bars rest barWidth (x + (barWidth + 1))%Q
  end.

(** [analyser.frequencyBinCount] *)
Definition frequencyBinCount (fftSize : nat) : nat := fftSize / 2.

(** The rectangles one run of [draw] fills. *)
Definition painted (fftSize : nat) (env : DrawEnv) : list Rect :=
  let bufferLength := frequencyBinCount fftSize in
  (* a new Uint8Array(bufferLength), filled by getByteFrequencyData *)
  let dataArray := resize bufferLength 0 (getByteFrequencyData env) in
  let barWidth := ((width / inject_Z (Z.of_nat bufferLength)) * 2.5)%Q in
  bars dataArray barWidth 0%Q.

(** [draw] *)
Definition draw (env : DrawEnv) (v : Visualizer) : Visualizer :=
  match canvasRef v, analyserRef v with
  | true, Some fftSize =>
      if getContext env
      then
        let v := clearRect v in
        let v := upd_canvas (λ filled, filled ++ painted fftSize env) v in
        upd_animationRef (λ _, Some (requestAnimationFrame env))
          (upd_pending (λ frames, frames ∪ {[requestAnimationFrame env]}) v)
      else v
  | _, _ => v
  end.

(** [initAudio] *)
Definition initAudio (stream : MediaStream) (env : DrawEnv) (v : Visualizer) : Visualizer :=
  (* new AudioContextClass(), createAnalyser(), fftSize = 256,
     createMediaStreamSource(stream) *)
  let v := upd_open_contexts (λ n, n + 1) v in
  let v := upd_audioContextRef (λ _, Some ctx_open) v in
  let v := upd_analyserRef (λ _, Some 256) v in
  let v := upd_sourceRef (λ _, Some stream) v in
  draw env v.

(** The cleanup the effect returns when it has started the audio. *)
Definition cleanup (v : Visualizer) : Visualizer :=
  let v := cancel_animation v in
  match audioContextRef v with
  | Some _ => close v
  | None => v
  end.

(** The effect, for the properties [stream] and [isRecording] of a render. *)
Definition effect (stream : option MediaStream) (isRecording : bool) (env : DrawEnv)
    (v : Visualizer) : Visualizer :=
  match stream, isRecording with
  | Some s, true => effect_ran (stream, isRecording) true (initAudio s env v)
  | _, _ =>
      let v := match audioContextRef v with
               | Some ctx_open => close v
               | _ => v
               end in
      let v := cancel_animation v in
      (* Clear canvas *)
      let v := if canvasRef v && getContext env then clearRect v else v in
      effect_ran (stream, isRecording) false v
  end.

(** The events of the component: React renders it with its properties, the
    platform runs an animation frame, React takes the component off the
    page. *)
Inductive Event :=
| Render (stream : option MediaStream) (isRecording : bool) (env : DrawEnv)
| Frame (frame : nat) (env : DrawEnv)
| Unmount.

(** The component before its first render. *)
Definition created : Visualizer :=
  {| canvasRef := false; animationRef := None; audioContextRef := None;
     analyserRef := None; sourceRef := None; open_contexts := 0; closed_twice := 0;
     pending := ∅; canvas := []; deps := None; has_cleanup := false; gone := false |}.

(** React runs the effect after the first render and after each render in
    which a dependency has changed, the cleanup of the run before first. *)
Definition dispatch (ev : Event) (v : Visualizer) : Visualizer :=
  match ev with
  | Render stream isRecording env =>
      if gone v then v
      else
        match deps v with
        | None => effect stream isRecording env (upd_canvasRef (λ _, true) v)
        | Some before =>
            if bool_decide (before = (stream, isRecording)) then v
            else effect stream isRecording env (if has_cleanup v then cleanup v else v)
        end
  | Frame frame env =>
      if bool_decide (frame ∈ pending v)
      then draw env (upd_pending (λ frames, frames ∖ {[frame]}) v)
      else v
  | Unmount =>
      if gone v then v
      else left_the_page (if has_cleanup v then cleanup v else v)
  end.

Definition run (evs : list Event) (v : Visualizer) : Visualizer :=
  foldl (λ s ev, dispatch ev s) v evs.

End AudioVisualizer.

(* ===================================================================== *)
(** ** What the words of the specification mean                           *)
(* ===================================================================== *)


(** [s] is [pre], then its first occurrence of [p], then [post]. *)
Definition first_occurrence (s p pre post : string) : Prop :=
  s = pre +:+ p +:+ post
  ∧ ∀ pre' post', s = pre' +:+ p +:+ post' → String.length pre ≤ String.length pre'.






(** An effect that encodes the payload or calls the network. *)
Definition reaches_out (e : Effect) : Prop :=
  match e with
  | ReadAsDataURL _ | GenerateContent _ _ _ _ _ => True
  | _ => False
  end.

(** The chunks of a recorder once it has stopped with [n] bytes gathered
    since its last chunk. *)
Definition final_chunks (rec : MediaRecorder) (n : nat) : list Blob :=
  if 0 <? n then chunks rec ++ [recorded rec n] else chunks rec.

(** What a recording holds from its creation on. *)
Definition as_created (r : Recording) : string * Blob * string * N * nat * string :=
  (id r, blob r, url r, timestamp r, duration r, name r).

(** The events that stop the session's recorder. *)
Definition stops (ev : Event) : Prop :=
  match ev with
  | ClickStop _ | VideoTrackEnded _ _ => True
  | _ => False
  end.

(** The name the specification gives a recording:
    [Meeting_<date>_<hour><minute>.<extension>], the extension [mp4] or
    [webm]. *)
Definition claimed_name (n : string) : Prop :=
  ∃ date hour minute extension,
    n = "Meeting_" +:+ date +:+ "_" +:+ hour +:+ minute +:+ "." +:+ extension
    ∧ (extension = "mp4" ∨ extension = "webm").

(** A step from [st] to [st'] adds no recording, or it is a stop: the
    recorder was active before and is inactive after, and the one new
    recording stands first, its payload assembled from the chunks the
    recorder kept. *)
Definition adds_nothing_or_stops (ev : Event) (st st' : App) : Prop :=
  sublist (as_created <$> recordings st') (as_created <$> recordings st)
  ∨ (stops ev
     ∧ (∃ rec, mediaRecorderRef st = Some rec ∧ mr_state rec ≠ st_inactive)
     ∧ ∃ rec' r,
         mediaRecorderRef st' = Some rec' ∧ mr_state rec' = st_inactive
         ∧ recordings st' = r :: recordings st
         ∧ blob_size (blob r) = sum_list (blob_size <$> chunks rec')).

(** A recording enters the list only where a recorder that was active has
    stopped. *)
Definition enters_only_at_stop (dispatch : Event → App → App) : Prop :=
  ∀ ev st, adds_nothing_or_stops ev st (dispatch ev st).

(** Every chunk the recorder of [st] has kept is non-empty. *)
Definition keeps_nonempty_chunks (st : App) : Prop :=
  ∀ rec, mediaRecorderRef st = Some rec → Forall (λ chunk, 0 < blob_size chunk) (chunks rec).


(* ===================================================================== *)
(** ** Words for the further properties                                   *)
(* ===================================================================== *)

(** [s] holds no comma. *)
Fixpoint comma_free (s : string) : Prop :=
  match s with
  | EmptyString => True
  | String c s' => c ≠ ","%char ∧ comma_free s'
  end.

(** An entry of [console.error]. *)
Definition is_console_error (e : Effect) : Prop :=
  match e with
  | ConsoleError _ _ => True
  | _ => False
  end.

(** The decimal digit [d] as a character. *)
Definition digit (d : nat) : ascii := ascii_of_nat (48 + d).

#[global] Instance reaches_out_dec e : Decision (reaches_out e).
Proof. destruct e; simpl; apply _. Defined.

(** Reading a decimal numeral back, leading zeros allowed. *)
Definition read_decimal (s : string) : option nat :=
  Nat.of_uint <$> NilEmpty.uint_of_string s.

(** [s] holds no colon. *)
Fixpoint colon_free (s : string) : Prop :=
  match s with
  | EmptyString => True
  | String c s' => c ≠ ":"%char ∧ colon_free s'
  end.

(** The intervals still live once [clearInterval(timerIntervalRef.current)]
    has run. *)
Definition cleared (st : App) : gset nat :=
  match timerIntervalRef st with
  | Some (S n) => intervals st ∖ {[S n]}
  | _ => intervals st
  end.

(** The two errors [part_002] reads as the user dismissing the picker. *)
Definition cancelled (e : JsError) : Prop :=
  err_name e = "NotAllowedError" ∨ err_name e = "AbortError".
(* ===================================================================== *)
(** ** Words for the sessions of the page                                 *)
(* ===================================================================== *)

(** The state variable and the recorder agree: the page is idle over no
    active recorder, or recording over a recording one. *)
Definition agree (st : App) : Prop :=
  (recorderState st = IDLE
   ∧ ∀ rec, mediaRecorderRef st = Some rec → mr_state rec = st_inactive)
  ∨ (recorderState st = RECORDING
     ∧ ∃ rec, mediaRecorderRef st = Some rec ∧ mr_state rec = st_recording).

(** The counter and the intervals follow the state variable. *)
Definition settled (st : App) : Prop :=
  (recorderState st = IDLE → timer st = 0 ∧ intervals st = ∅)
  ∧ (recorderState st = RECORDING →
     ∃ i, i ≠ 0 ∧ timerIntervalRef st = Some i ∧ intervals st = {[i]}).

(** [window.setInterval] returns a non-zero identifier. *)
Definition platform_interval (ev : Event) : Prop :=
  match ev with
  | ClickStart env => setInterval env ≠ 0
  | _ => True
  end.

(** What a session holds, the counter apart. *)
Definition same_session (st st' : App) : Prop :=
  recorderState st' = recorderState st
  ∧ mr_state <$> mediaRecorderRef st' = mr_state <$> mediaRecorderRef st
  ∧ timerIntervalRef st' = timerIntervalRef st
  ∧ intervals st' = intervals st
  ∧ activeStreams st' = activeStreams st
  ∧ audioContextRef st' = audioContextRef st
  ∧ systemStreamRef st' = systemStreamRef st
  ∧ mixedStreamRef st' = mixedStreamRef st
  ∧ endedTracks st' = endedTracks st.

(** The events that neither start nor stop a session. *)
Definition quiet (ev : Event) : Prop :=
  match ev with
  | ClickStart _ | ClickStop _ | VideoTrackEnded _ _ => False
  | _ => True
  end.

#[global] Instance quiet_dec ev : Decision (quiet ev).
Proof. destruct ev; simpl; apply _. Defined.

(** The identifiers of the tracks of an optional stream. *)
Definition tracks_of (ref : option MediaStream) : gset nat :=
  match ref with
  | Some stream => list_to_set (track_id <$> getTracks stream)
  | None => ∅
  end.

(** [close()] on the audio context a reference holds, if it is open. *)
Definition closed (ref : option AudioContextState) : option AudioContextState :=
  match ref with
  | Some ctx_open => Some ctx_closed
  | other => other
  end.

(** The readings of the clock that become identifiers: one for each event
    that stops a recorder. *)
Definition stamp (ev : Event) : option N :=
  match ev with
  | ClickStop env | VideoTrackEnded _ env => Some (now_id env)
  | _ => None
  end.

Definition stamps (evs : list Event) : list N := omap stamp evs.

(** The identifiers of the list of recordings. *)
Definition ids (st : App) : list string := id <$> recordings st.

(** The platform of [env], its answer to [getUserMedia] replaced. *)
Definition with_getUserMedia (mic : MicCapture) (env : StartEnv) : StartEnv :=
  {| getDisplayMedia := getDisplayMedia env; getUserMedia := mic;
     isTypeSupported := isTypeSupported env; destinationTrack := destinationTrack env;
     setInterval := setInterval env |}.

(** The sources [part_001] mixes into the stream it records. *)
Definition mixed_sources (includeMic : bool) (mic : MicCapture) : list AudioSource :=
  SystemAudio
  :: (if includeMic
      then match mic with MicGranted _ => [Microphone] | MicRejected _ => [] end
      else []).
(* ===================================================================== *)
(** ** Words for the visualizer                                           *)
(* ===================================================================== *)

Section visualizer_words.
Import AudioVisualizer.

(** The component is on the page and was last rendered with a stream that is
    being recorded. *)
Definition active (v : Visualizer) : bool :=
  negb (gone v)
  && match deps v with
     | Some (Some _, true) => true
     | _ => false
     end.

(** [requestAnimationFrame] returns a non-zero identifier. *)
Definition frame_identifier (ev : Event) : Prop :=
  match ev with
  | Render _ _ env | Frame _ env => requestAnimationFrame env ≠ 0
  | Unmount => True
  end.


(** At most one frame is pending, the one [animationRef] names. *)
Definition one_frame (v : Visualizer) : Prop :=
  pending v = ∅
  ∨ ∃ frame, frame ≠ 0 ∧ animationRef v = Some frame ∧ pending v = {[frame]}.

(** The component holds nothing of the platform. *)
Definition at_rest (v : Visualizer) : Prop :=
  closed_twice v = 0 ∧ audioContextRef v ≠ Some ctx_open ∧ open_contexts v = 0
  ∧ pending v = ∅.

(** The component holds one open audio context, its analyser and at most
    one frame. *)
Definition running (v : Visualizer) : Prop :=
  closed_twice v = 0 ∧ audioContextRef v = Some ctx_open ∧ open_contexts v = 1
  ∧ one_frame v ∧ canvasRef v = true ∧ analyserRef v = Some 256.

(** The component runs while it is active and is at rest otherwise; an
    effect has a cleanup exactly when it started the audio. *)
Definition tidy (v : Visualizer) : Prop :=
  (gone v = false → is_Some (deps v) → canvasRef v = true)
  ∧ if active v
    then running v ∧ has_cleanup v = true
    else at_rest v ∧ has_cleanup v = false.


(** The byte of the bin [i] in the data of a frame. *)
Definition byte_of (env : DrawEnv) (i : nat) : nat :=
  default 0 (getByteFrequencyData env !! i).

End visualizer_words.

#[global] Instance RecorderState_eq_dec : EqDecision RecorderState.
Proof. solve_decision. Defined.

(** The render of the visualizer that follows a state of the page:
    [<AudioVisualizer stream={mixedStreamRef.current}
       isRecording={recorderState === RecorderState.RECORDING} />]. *)
Definition render_of (st : App) (env : AudioVisualizer.DrawEnv) : AudioVisualizer.Event :=
  AudioVisualizer.Render (mixedStreamRef st) (bool_decide (recorderState st = RECORDING)) env.

(** What happens on the page that shows the visualizer: an event of the page
    and the render that follows it, or an animation frame. *)
Inductive Shown :=
| OnPage (ev : Event) (env : AudioVisualizer.DrawEnv)
| Animation (frame : nat) (env : AudioVisualizer.DrawEnv).

Definition shown_step (dispatch : Event → App → App) (step : Shown)
    (s : App * AudioVisualizer.Visualizer) : App * AudioVisualizer.Visualizer :=
  match step with
  | OnPage ev env =>
      let st' := dispatch ev s.1 in
      (st', AudioVisualizer.dispatch (render_of st' env) s.2)
  | Animation frame env =>
      (s.1, AudioVisualizer.dispatch (AudioVisualizer.Frame frame env) s.2)
  end.

(** The page as mounted, its visualizer rendered for the first time. *)
Definition shown_mounted (env : AudioVisualizer.DrawEnv) : App * AudioVisualizer.Visualizer :=
  (mounted, AudioVisualizer.dispatch (render_of mounted env) AudioVisualizer.created).

Definition shown_run (dispatch : Event → App → App) (steps : list Shown)
    (s : App * AudioVisualizer.Visualizer) : App * AudioVisualizer.Visualizer :=
  foldl (λ s step, shown_step dispatch step s) s steps.

(** The identifier [requestAnimationFrame] returns during a step. *)
Definition frame_of (step : Shown) : nat :=
  match step with
  | OnPage _ env | Animation _ env => AudioVisualizer.requestAnimationFrame env
  end.

(** While the page records, [mixedStreamRef] holds the stream it records. *)
Definition mixes (st : App) : Prop :=
  recorderState st = RECORDING → is_Some (mixedStreamRef st).

(** What the visualizer does for a state of the page: it is active, and
    holds an audio context, exactly while the page records, and then it
    analyses the stream the page records; otherwise no frame is pending. *)
Definition follows (s : App * AudioVisualizer.Visualizer) : Prop :=
  active s.2 = bool_decide (recorderState s.1 = RECORDING)
  ∧ AudioVisualizer.open_contexts s.2
    = (if bool_decide (recorderState s.1 = RECORDING) then 1 else 0)
  ∧ (recorderState s.1 = RECORDING →
     is_Some (mixedStreamRef s.1)
     ∧ AudioVisualizer.sourceRef s.2 = mixedStreamRef s.1)
  ∧ (recorderState s.1 ≠ RECORDING → AudioVisualizer.pending s.2 = ∅).

(** The visualizer shows the page: it was rendered last with the properties
    of the state of the page, and while it is active it analyses the stream
    it was given. *)
Definition shows (s : App * AudioVisualizer.Visualizer) : Prop :=
  AudioVisualizer.gone s.2 = false
  ∧ AudioVisualizer.deps s.2
    = Some (mixedStreamRef s.1, bool_decide (recorderState s.1 = RECORDING))
  ∧ (active s.2 = true → AudioVisualizer.sourceRef s.2 = mixedStreamRef s.1).

(* ===================================================================== *)
(** ** Concrete inputs                                                    *)
(* ===================================================================== *)

Definition env_without_key : GeminiService.Env :=
  {| GeminiService.API_KEY := None;
     GeminiService.fileReader := inr "data:audio/webm;base64,GkXf";
     GeminiService.remote := inr (Some "## Transcription
hello
## Summary
- greeting") |}.

Definition some_blob : Blob :=
  {| blob_size := 3; blob_type := "audio/webm"; blob_audio := [SystemAudio] |}.

Definition denied : JsError :=
  {| err_name := "NotAllowedError"; err_message := "Permission denied" |}.

Definition start_env (display : DisplayCapture) (mic : MicCapture) : StartEnv :=
  {| getDisplayMedia := display; getUserMedia := mic;
     isTypeSupported := λ _, true; destinationTrack := 4; setInterval := 7 |}.

(** A stop at 09:05 local time, with [last] bytes gathered since the last
    chunk. *)
Definition stop_env (last : nat) : StopEnv :=
  {| lastData := last; negotiated := "audio/mp4"; createObjectURL := "blob:1";
     now_id := 1700000000000; now_timestamp := 1700000000001;
     toISOString := "2026-11-02T09:05:00.000Z"; getHours := 9; getMinutes := 5;
     toLocaleString := "11/2/2026, 9:05:00 AM" |}.

Definition first_recording : Recording :=
  {| id := "1700000000000"; blob := some_blob; url := "blob:1";
     timestamp := 1700000000000; duration := 0; name := "Meeting_2026-11-02_95.mp4";
     transcription := None; summary := None |}.

Definition second_recording : Recording :=
  {| id := "1700000360000"; blob := some_blob; url := "blob:2";
     timestamp := 1700000360000; duration := 0; name := "Meeting_2026-11-02_911.mp4";
     transcription := None; summary := None |}.

(** The mounted component with two recordings in its list, the latest first. *)
Definition two_recordings : App :=
  upd_recordings (λ _, [second_recording; first_recording]) mounted.

Definition env_with_key : GeminiService.Env :=
  {| GeminiService.API_KEY := Some "key";
     GeminiService.fileReader := inr "data:audio/webm;base64,GkXf";
     GeminiService.remote := inr (Some "## Transcription
hello
## Summary
- greeting") |}.

(** The component of [part_001] after a start in which the display capture
    was granted with one audio track and the microphone was denied. *)
Definition recording_session : App :=
  App1.run [ClickStart (start_env (DisplayGranted 1 [2]) (MicRejected denied))] mounted.

(** Its recorder. *)
Definition session_recorder : MediaRecorder :=
  new_started_recorder "audio/mp4" [SystemAudio] 0.

(* ===================================================================== *)
(** ** Concrete inputs for the further properties                         *)
(* ===================================================================== *)

(** A call whose remote model rejects. *)
Definition env_remote_fails : GeminiService.Env :=
  {| GeminiService.API_KEY := Some "key";
     GeminiService.fileReader := inr "data:audio/webm;base64,GkXf";
     GeminiService.remote := inl {| err_name := "ApiError"; err_message := "503" |} |}.

(** A stop six minutes after [stop_env]. *)
Definition later_stop_env (last : nat) : StopEnv :=
  {| lastData := last; negotiated := "audio/webm;codecs=opus"; createObjectURL := "blob:2";
     now_id := 1700000360000; now_timestamp := 1700000360001;
     toISOString := "2026-11-02T09:11:00.000Z"; getHours := 9; getMinutes := 11;
     toLocaleString := "11/2/2026, 9:11:00 AM" |}.

(** Two sessions, one after the other, the second started while the first
    recording is analysed. *)
Definition two_sessions : list Event :=
  [ClickStart (start_env (DisplayGranted 1 [2]) (MicGranted [3]));
   DataAvailable 10; IntervalFires 7;
   ClickStop (stop_env 5);
   ClickAnalyze "1700000000000" env_with_key;
   ClickStart (start_env (DisplayGranted 5 [6]) (MicRejected denied));
   IntervalFires 7;
   VideoTrackEnded 5 (later_stop_env 0)].


(** A frame of the visualizer: a context, four bytes of data, and the
    identifier of the next frame. *)
Definition frame_env (next : nat) : AudioVisualizer.DrawEnv :=
  {| AudioVisualizer.getContext := true;
     AudioVisualizer.getByteFrequencyData := [255; 128; 64; 0];
     AudioVisualizer.requestAnimationFrame := next |}.


(** One session of the page that shows the visualizer, with two animation
    frames while it records. *)
Definition shown_steps : list Shown :=
  [OnPage (ClickStart (start_env (DisplayGranted 1 [2]) (MicGranted [3]))) (frame_env 12);
   Animation 12 (frame_env 13);
   OnPage (IntervalFires 7) (frame_env 14);
   Animation 13 (frame_env 15);
   OnPage (ClickStop (stop_env 3)) (frame_env 16)].

(* ===================================================================== *)
(** ** Tactics                                                            *)
(* ===================================================================== *)

(** Unfolds the statements of the store down to functions on [App]. *)
Ltac unfold_monad :=
  cbv [exec mbind M_bind mret M_ret get modify throw early_return try_catch
       try_finally zoom setRecorderState setRecordings setTimer setErrorMsg
       setProcessingIds stop_tracks close_audioContext clear_timerInterval
       app_perform perform start_timerInterval] in *.

(** Replaces a test on closed terms by its value. *)
Ltac decide_closed :=
  match goal with
  | |- context [@bool_decide ?P ?d] =>
      let b := eval vm_compute in (@bool_decide P d) in
      match b with
      | true => change (@bool_decide P d) with true
      | false => change (@bool_decide P d) with false
      end
  end.

(** Replaces [includes] on closed strings by its value. *)
Ltac includes_closed :=
  match goal with
  | |- context [Js.includes ?a ?b] =>
      let v := eval vm_compute in (Js.includes a b) in
      match v with
      | true => change (Js.includes a b) with true
      | false => change (Js.includes a b) with false
      end
  end.

Ltac eval_store := repeat (progress (cbn; repeat decide_closed; repeat includes_closed)).

(** Case analysis on what a [match] of the goal inspects, when that is a
    variable. *)
Ltac destruct_var_match :=
  match goal with
  | |- context [match ?x with _ => _ end] => is_var x; destruct x
  end.

Ltac crunch := repeat (first [progress eval_store | destruct_var_match]).

(** Case analysis on the test of an [if] of the goal. *)
Ltac destruct_if :=
  match goal with
  | |- context [if ?b then _ else _] => destruct b eqn:?
  end.

Ltac crunch_all :=
  repeat (first [progress eval_store | destruct_var_match | destruct_if]).

#[local] Arguments GeminiService.analyzeAudio : simpl never.
#[local] Arguments Js.includes : simpl never.
#[local] Arguments Js.slice : simpl never.
#[local] Arguments Js.toString : simpl never.
#[local] Arguments Js.toStringN : simpl never.


(* ===================================================================== *)
(** ** The functions on small inputs                                      *)
(* ===================================================================== *)

Example indexOf_demo : Js.indexOf "ab ## Summary x" "## Summary" = Some 3.
Proof. reflexivity. Qed.

Example replace_demo : Js.replace "a-b-c" "-" "" = "a" +:+ "b-c".
Proof. reflexivity. Qed.

Example trim_demo : Js.trim "  a b
 " = "a b".
Proof. reflexivity. Qed.

Example toString_demo : Js.toString 0 = "0" ∧ Js.toString 905 = "905" ∧ Js.toStringN 1700000000000 = "1700000000000".
Proof. vm_compute. auto. Qed.

Example sections_demo :
  GeminiService.sections (Some "## Transcription
hello
## Summary
- greeting")
  = {| GeminiService.a_transcription := "hello"; GeminiService.a_summary := "- greeting" |}.
Proof. reflexivity. Qed.

(* ===================================================================== *)
(** ** Facts about the string functions                                   *)
(* ===================================================================== *)

Section string_facts.
Implicit Types s p t pre post : string.

Lemma app_cons c s t : String c s +:+ t = String c (s +:+ t).
Proof. reflexivity. Qed.

Lemma app_empty_l s : "" +:+ s = s.
Proof. reflexivity. Qed.

Lemma app_empty_r s : s +:+ "" = s.
Proof. induction s as [|c s IH]; [done|]. by rewrite app_cons, IH. Qed.

Lemma app_assoc_str s t u : (s +:+ t) +:+ u = s +:+ t +:+ u.
Proof. induction s as [|c s IH]; [done|]. by rewrite !app_cons, IH. Qed.

Lemma length_app_str s t : String.length (s +:+ t) = String.length s + String.length t.
Proof. induction s as [|c s IH]; [done|]. rewrite app_cons. simpl. by rewrite IH. Qed.

Lemma str_take_app s t : Js.str_take (String.length s) (s +:+ t) = s.
Proof. induction s as [|c s IH]; [by destruct t|]. rewrite app_cons. simpl. by rewrite IH. Qed.

Lemma str_drop_app s t : Js.str_drop (String.length s) (s +:+ t) = t.
Proof. induction s as [|c s IH]; [by destruct t|]. rewrite app_cons. simpl. by rewrite IH. Qed.

Lemma str_take_drop n s : Js.str_take n s +:+ Js.str_drop n s = s.
Proof.
  revert s. induction n as [|n IH]; intros [|c s]; simpl; try done.
  by rewrite app_cons, IH.
Qed.

Lemma startsWith_app s p : Js.startsWith (p +:+ s) p = true.
Proof.
  induction p as [|c p IH]; [by destruct s|].
  rewrite app_cons. simpl. by rewrite Ascii.eqb_refl.
Qed.




Lemma replace_unfold s p r :
  Js.replace s p r =
    if Js.startsWith s p then r +:+ Js.str_drop (String.length p) s
    else match s with
         | EmptyString => EmptyString
         | String c s' => String c (Js.replace s' p r)
         end.
Proof. by destruct s. Qed.



(** Two first occurrences of [p] in [s] are the same one. *)
Lemma first_occurrence_unique s p pre post pre' post' :
  first_occurrence s p pre post → first_occurrence s p pre' post' →
  pre = pre' ∧ post = post'.
Proof.
  intros [E1 M1] [E2 M2].
  assert (String.length pre = String.length pre') as Hlen.
  { apply Nat.le_antisymm; [by eapply M1 | by eapply M2]. }
  assert (pre = pre') as <-.
  { rewrite <-(str_take_app pre (p +:+ post)), <-E1, E2, Hlen. apply str_take_app. }
  split; [done|]. rewrite E1 in E2. by do 2 apply (inj _) in E2.
Qed.






End string_facts.

(* ===================================================================== *)
(** ** The transcription service                                          *)
(* ===================================================================== *)



(** What is left of the marker's section is the text after the marker. *)
Lemma replace_marker_prefix p post : Js.replace (p +:+ post) p "" = post.
Proof.
  rewrite replace_unfold, startsWith_app, app_empty_l. apply str_drop_app.
Qed.

(** C7.  When the API credential is absent or the empty string,
    [analyzeAudio] throws the error "API Key is missing..." whatever the
    audio payload, and nothing it did before encodes the payload or calls the
    network: the only effect is the log entry of its [catch]. *)
Theorem analyzeAudio_without_key (env : GeminiService.Env) (audioBlob : Blob)
    (log : list Effect) :
  GeminiService.API_KEY env = None ∨ GeminiService.API_KEY env = Some "" →
  ∃ e added,
    GeminiService.analyzeAudio env audioBlob log = (log ++ added, Throw e)
    ∧ Js.startsWith (err_message e) "API Key is missing" = true
    ∧ Forall (λ effect, ¬ reaches_out effect) added.
Proof.
  intros Hkey.
  exists (Error "API Key is missing. Please ensure your API key is configured.").
  eexists [ConsoleError _ _].
  unfold GeminiService.analyzeAudio.
  assert (GeminiService.key_missing (GeminiService.API_KEY env) = true) as ->.
  { by destruct Hkey as [-> | ->]. }
  unfold_monad. split_and!; [reflexivity | reflexivity |].
  constructor; [|constructor]. simpl. tauto.
Qed.

Lemma analyzeAudio_without_key_witness :
  ∃ e added,
    GeminiService.analyzeAudio env_without_key some_blob [] = ([] ++ added, Throw e)
    ∧ Js.startsWith (err_message e) "API Key is missing" = true
    ∧ Forall (λ effect, ¬ reaches_out effect) added.
Proof. apply (analyzeAudio_without_key env_without_key some_blob []). by left. Defined.




Example analyzeAudio_demo :
  GeminiService.analyzeAudio env_with_key some_blob []
  = ([ReadAsDataURL some_blob;
      GenerateContent "key" "gemini-2.5-flash" "audio/webm" (Some "GkXf") GeminiService.prompt],
     Normal {| GeminiService.a_transcription := "hello";
               GeminiService.a_summary := "- greeting" |}).
Proof. reflexivity. Qed.

(* ===================================================================== *)
(** ** Facts about the platform's streams and the list of recordings      *)
(* ===================================================================== *)

Lemma getAudioTracks_display video audio :
  getAudioTracks (display_stream video audio) = microphone_stream audio.
Proof.
  unfold getAudioTracks, display_stream, microphone_stream.
  rewrite filter_cons_False by (simpl; congruence).
  induction audio as [|a l IH]; [done|].
  rewrite fmap_cons, filter_cons_True by done. by rewrite IH.
Qed.

Lemma getVideoTracks_display video audio :
  getVideoTracks (display_stream video audio)
  = [ {| track_id := video; kind := VideoTrack |} ].
Proof.
  unfold getVideoTracks, display_stream.
  rewrite filter_cons_True by done. f_equal.
  induction audio as [|a l IH]; [done|].
  rewrite fmap_cons, filter_cons_False by (simpl; congruence). done.
Qed.

Lemma no_audio_track video audio :
  length (getAudioTracks (display_stream video audio)) = 0 → audio = [].
Proof.
  rewrite getAudioTracks_display. unfold microphone_stream. rewrite length_fmap.
  by destruct audio.
Qed.

Section recordings_facts.
Implicit Types (l : list Recording) (r : Recording).

Lemma filter_other_ids l target :
  (target ∉ id <$> l) → filter (λ r, id r ≠ target) l = l.
Proof.
  induction l as [|r l IH]; [done|]. rewrite fmap_cons, not_elem_of_cons. intros [Hr Hl].
  rewrite filter_cons_True by done. by rewrite IH.
Qed.

Lemma split_at_id l target :
  NoDup (id <$> l) → target ∈ id <$> l →
  ∃ before r after,
    l = before ++ r :: after ∧ id r = target
    ∧ (target ∉ id <$> before) ∧ (target ∉ id <$> after).
Proof.
  intros Hnd (r & -> & Hr)%list_elem_of_fmap.
  apply list_elem_of_split in Hr as (before & after & ->).
  exists before, r, after. rewrite fmap_app, fmap_cons in Hnd.
  apply NoDup_app in Hnd as (_ & Hb & Ha). apply NoDup_cons in Ha as [Ha _].
  split_and!; try done. intros Hin. apply (Hb _ Hin). left.
Qed.

Lemma find_by_id l i r :
  NoDup (id <$> l) → l !! i = Some r →
  List.find (λ x, bool_decide (id x = id r)) l = Some r.
Proof.
  revert i. induction l as [|x l IH]; intros i Hnd Hi; [done|].
  rewrite fmap_cons in Hnd. apply NoDup_cons in Hnd as [Hx Hnd]. simpl.
  destruct i as [|i]; simpl in Hi.
  - injection Hi as ->. by rewrite bool_decide_eq_true_2.
  - rewrite bool_decide_eq_false_2; [by eapply IH|].
    intros E. apply Hx. rewrite E. apply list_elem_of_fmap. exists r. split; [done|].
    by eapply list_elem_of_lookup_2.
Qed.


End recordings_facts.

(* ===================================================================== *)
(** ** Starting a session                                                 *)
(* ===================================================================== *)

(** C2.  When the display capture is granted and its stream carries no
    audio track, [startRecording] ends with the recorder state idle and the
    message that tells the user to share the audio; the list of recordings
    is as it was, and every track of the granted stream was stopped.  This
    holds in both components, each with its own text. *)
Theorem start_without_audio_track (st : App) (env : StartEnv) (video : nat)
    (audio : list nat) :
  getDisplayMedia env = DisplayGranted video audio →
  length (getAudioTracks (display_stream video audio)) = 0 →
  (let st' := exec (App1.startRecording env) st in
   recorderState st' = IDLE
   ∧ errorMsg st'
     = Some "Please check 'Share Audio' in the browser popup to record Teams audio."
   ∧ recordings st' = recordings st
   ∧ ∀ track, track ∈ display_stream video audio → track_id track ∈ endedTracks st')
  ∧ (let st' := exec (App2.startRecording env) st in
     recorderState st' = IDLE
     ∧ errorMsg st'
       = Some "No system audio detected. To record Teams Desktop, you MUST select 'Entire Screen' tab and check 'Share system audio'."
     ∧ recordings st' = recordings st
     ∧ ∀ track, track ∈ display_stream video audio → track_id track ∈ endedTracks st').
Proof.
  intros Hd Hlen. apply no_audio_track in Hlen as ->.
  destruct st. split.
  - unfold App1.startRecording, App1.cleanup. rewrite Hd. cbv zeta.
    rewrite getAudioTracks_display. unfold_monad. crunch.
    all: split_and!; try done.
    all: intros track ->%list_elem_of_singleton; cbn.
    all: rewrite !elem_of_union, elem_of_singleton; tauto.
  - unfold App2.startRecording, App2.stopStreams. rewrite Hd. cbv zeta.
    rewrite getAudioTracks_display. unfold_monad. crunch.
    all: split_and!; try done.
    all: intros track ->%list_elem_of_singleton; cbn.
    all: rewrite !elem_of_union, elem_of_singleton; tauto.
Qed.

Lemma start_without_audio_track_witness :
  let st := mounted in
  let env := start_env (DisplayGranted 1 []) (MicGranted [3]) in
  getDisplayMedia env = DisplayGranted 1 []
  ∧ length (getAudioTracks (display_stream 1 [])) = 0
  ∧ (let st' := exec (App1.startRecording env) st in
     recorderState st' = IDLE
     ∧ errorMsg st'
       = Some "Please check 'Share Audio' in the browser popup to record Teams audio."
     ∧ recordings st' = recordings st
     ∧ ∀ track, track ∈ display_stream 1 [] → track_id track ∈ endedTracks st')
  ∧ (let st' := exec (App2.startRecording env) st in
     recorderState st' = IDLE
     ∧ errorMsg st'
       = Some "No system audio detected. To record Teams Desktop, you MUST select 'Entire Screen' tab and check 'Share system audio'."
     ∧ recordings st' = recordings st
     ∧ ∀ track, track ∈ display_stream 1 [] → track_id track ∈ endedTracks st').
Proof.
  split; [reflexivity|]. split; [reflexivity|].
  apply (start_without_audio_track mounted
           (start_env (DisplayGranted 1 []) (MicGranted [3])) 1 []); reflexivity.
Defined.

(** C3.  When the platform rejects the display capture with a
    [NotAllowedError] (the request was denied or the prompt was cancelled),
    [startRecording] ends with the recorder state idle and no error message,
    and the list of recordings is as it was; in both components. *)
Theorem start_denied (st : App) (env : StartEnv) (e : JsError) :
  getDisplayMedia env = DisplayRejected e → err_name e = "NotAllowedError" →
  (let st' := exec (App1.startRecording env) st in
   recorderState st' = IDLE ∧ errorMsg st' = None ∧ recordings st' = recordings st)
  ∧ (let st' := exec (App2.startRecording env) st in
     recorderState st' = IDLE ∧ errorMsg st' = None ∧ recordings st' = recordings st).
Proof.
  intros Hd Hn. destruct st. split.
  - unfold App1.startRecording, App1.cleanup. rewrite Hd. unfold_monad.
    cbn. rewrite Hn. crunch; done.
  - unfold App2.startRecording. rewrite Hd. unfold_monad.
    cbn. rewrite Hn. crunch; done.
Qed.

Lemma start_denied_witness :
  let st := mounted in
  let env := start_env (DisplayRejected denied) (MicGranted [3]) in
  getDisplayMedia env = DisplayRejected denied
  ∧ err_name denied = "NotAllowedError"
  ∧ (let st' := exec (App1.startRecording env) st in
     recorderState st' = IDLE ∧ errorMsg st' = None ∧ recordings st' = recordings st)
  ∧ (let st' := exec (App2.startRecording env) st in
     recorderState st' = IDLE ∧ errorMsg st' = None ∧ recordings st' = recordings st).
Proof.
  split; [reflexivity|]. split; [reflexivity|].
  apply (start_denied mounted
           (start_env (DisplayRejected denied) (MicGranted [3])) denied); reflexivity.
Defined.

(* ===================================================================== *)
(** ** The list of recordings: delete and analyze                         *)
(* ===================================================================== *)

(** C6.  When the identifiers of the list are pairwise distinct and
    [target] is one of them, [handleDelete target] removes the one entry
    with that identifier: the entries before it and after it stay, in their
    order.  The two components share the handler. *)
Theorem handleDelete_removes_that_entry (st : App) (target : string) :
  NoDup (id <$> recordings st) → target ∈ id <$> recordings st →
  ∃ before r after,
    recordings st = before ++ r :: after ∧ id r = target
    ∧ recordings (exec (App1.handleDelete target) st) = before ++ after
    ∧ recordings (exec (App2.handleDelete target) st) = before ++ after.
Proof.
  intros Hnd Hin.
  destruct (split_at_id _ _ Hnd Hin) as (before & r & after & E & Hr & Hb & Ha).
  exists before, r, after. split; [done|]. split; [done|].
  assert (recordings (exec (handleDelete target) st) = before ++ after) as Hdel; [|done].
  unfold handleDelete. unfold_monad. cbn. rewrite E.
  rewrite filter_app, filter_cons_False by (by intros []).
  by rewrite !filter_other_ids.
Qed.

Lemma handleDelete_removes_that_entry_witness :
  NoDup (id <$> recordings two_recordings)
  ∧ "1700000000000" ∈ id <$> recordings two_recordings
  ∧ ∃ before r after,
      recordings two_recordings = before ++ r :: after ∧ id r = "1700000000000"
      ∧ recordings (exec (App1.handleDelete "1700000000000") two_recordings) = before ++ after
      ∧ recordings (exec (App2.handleDelete "1700000000000") two_recordings) = before ++ after.
Proof.
  assert (NoDup (id <$> recordings two_recordings)) as Hnd.
  { apply (bool_decide_unpack _). vm_compute. exact I. }
  assert ("1700000000000" ∈ id <$> recordings two_recordings) as Hin.
  { apply (bool_decide_unpack _). vm_compute. exact I. }
  split; [exact Hnd|]. split; [exact Hin|].
  exact (handleDelete_removes_that_entry two_recordings "1700000000000" Hnd Hin).
Defined.



Example handleAnalyze_demo :
  recordings (exec (App1.handleAnalyze "1700000000000" env_with_key) two_recordings)
  = [second_recording; with_analysis first_recording "hello" "- greeting"]
  ∧ recordings (exec (App2.handleAnalyze "1700000000000" env_without_key) two_recordings)
    = [second_recording; first_recording].
Proof. split; reflexivity. Qed.

(* ===================================================================== *)
(** ** Stopping a session                                                 *)
(* ===================================================================== *)

Lemma App1_stop_run st env rec :
  mediaRecorderRef st = Some rec → mr_state rec ≠ st_inactive →
  let st' := exec (App1.stopRecording env) st in
  (∃ r, recordings st' = r :: recordings st
        ∧ blob r = newBlob (final_chunks rec (lastData env))
                     (if Js.includes (negotiated env) "mp4" then "video/mp4" else "audio/webm")
        ∧ duration r = onstop_timer rec
        ∧ name r = "Meeting_" +:+ Js.slice (toISOString env) 0 10 +:+ "_"
                   +:+ Js.toString (getHours env) +:+ Js.toString (getMinutes env) +:+ "."
                   +:+ (if Js.includes (negotiated env) "mp4" then "mp4" else "webm"))
  ∧ recorderState st' = IDLE ∧ timer st' = 0
  ∧ ∃ rec', mediaRecorderRef st' = Some rec' ∧ mr_state rec' = st_inactive
            ∧ chunks rec' = final_chunks rec (lastData env).
Proof.
  intros Href Hactive. cbv zeta.
  unfold App1.stopRecording, recorder_stop, recorder_stopped, ondataavailable,
    App1.onstop, App1.cleanup, final_chunks.
  unfold_monad. revert Href. destruct st; cbn. intros ->.
  rewrite !bool_decide_eq_true_2 by done. clear Hactive.
  destruct (lastData env), (Js.includes (negotiated env) "mp4"); crunch.
  all: split_and!; try done; eauto 10.
Qed.

Lemma App2_stop_run st env rec :
  mediaRecorderRef st = Some rec → mr_state rec ≠ st_inactive →
  let st' := exec (App2.stopRecording env) st in
  (∃ r, recordings st' = r :: recordings st
        ∧ blob r = newBlob (final_chunks rec (lastData env)) (mr_mimeType rec)
        ∧ duration r = onstop_timer rec
        ∧ name r = "Meeting " +:+ toLocaleString env)
  ∧ recorderState st' = IDLE ∧ timer st' = 0
  ∧ ∃ rec', mediaRecorderRef st' = Some rec' ∧ mr_state rec' = st_inactive
            ∧ chunks rec' = final_chunks rec (lastData env).
Proof.
  intros Href Hactive. cbv zeta.
  unfold App2.stopRecording, recorder_stop, recorder_stopped, ondataavailable,
    App2.onstop, App2.stopStreams, final_chunks.
  unfold_monad. revert Href. destruct st; cbn. intros ->.
  rewrite !bool_decide_eq_true_2 by done. clear Hactive.
  destruct (lastData env); crunch.
  all: split_and!; try done; eauto 10.
Qed.

(** Without an active recorder, [stopRecording] adds no recording. *)
Lemma stop_without_recorder st env :
  (∀ rec, mediaRecorderRef st = Some rec → mr_state rec = st_inactive) →
  recordings (exec (App1.stopRecording env) st) = recordings st
  ∧ recordings (exec (App2.stopRecording env) st) = recordings st.
Proof.
  intros Hidle. unfold App1.stopRecording, App2.stopRecording. unfold_monad.
  destruct (mediaRecorderRef st) as [rec|] eqn:Href.
  - rewrite !bool_decide_eq_false_2 by (rewrite (Hidle rec); auto).
    destruct st; cbn. crunch; done.
  - destruct st; cbn. crunch; done.
Qed.

(** [stopRecording] keeps the chunks non-empty. *)
Lemma stop_keeps_nonempty_chunks st env :
  keeps_nonempty_chunks st →
  keeps_nonempty_chunks (exec (App1.stopRecording env) st)
  ∧ keeps_nonempty_chunks (exec (App2.stopRecording env) st).
Proof.
  intros Hst. destruct (mediaRecorderRef st) as [rec|] eqn:Href.
  - assert (Forall (λ chunk, 0 < blob_size chunk) (final_chunks rec (lastData env))) as Hfinal.
    { unfold final_chunks. destruct (0 <? lastData env) eqn:Hlast; [|by apply Hst].
      apply Forall_app. split; [by apply Hst|]. constructor; [|done].
      by apply Nat.ltb_lt in Hlast. }
    destruct (decide (mr_state rec = st_inactive)) as [Hin|Hact].
    + unfold App1.stopRecording, App2.stopRecording. unfold_monad.
      rewrite Href, !bool_decide_eq_false_2 by auto.
      split; intros rec'; revert Href; destruct st; cbn; crunch; intros -> [= <-];
        by apply Hst.
    + destruct (App1_stop_run st env rec Href Hact) as (_ & _ & _ & r1 & Hr1 & _ & Hc1).
      destruct (App2_stop_run st env rec Href Hact) as (_ & _ & _ & r2 & Hr2 & _ & Hc2).
      split; intros rec'; rewrite ?Hr1, ?Hr2; intros [= <-]; by rewrite ?Hc1, ?Hc2.
  - unfold App1.stopRecording, App2.stopRecording. unfold_monad. rewrite Href.
    split; intros rec'; revert Href; destruct st; cbn; crunch; by intros ->.
Qed.

(** C8, as the code has it.  A stop of an active recorder creates one
    recording.  In the component with the optional microphone its name is
    "Meeting_", the first ten characters of the ISO date, "_", the hour and
    the minute (not padded), ".", and the extension: [mp4] when the
    negotiated encoding contains "mp4", [webm] otherwise.  In the component
    that records the display audio only, its name is "Meeting " followed by
    the local date and time, with no extension. *)
Theorem recording_name_of_stop (st : App) (env : StopEnv) (rec : MediaRecorder) :
  mediaRecorderRef st = Some rec → mr_state rec ≠ st_inactive →
  (∃ r extension,
      recordings (exec (App1.stopRecording env) st) = r :: recordings st
      ∧ name r = "Meeting_" +:+ Js.slice (toISOString env) 0 10 +:+ "_"
                 +:+ Js.toString (getHours env) +:+ Js.toString (getMinutes env)
                 +:+ "." +:+ extension
      ∧ (Js.includes (negotiated env) "mp4" = true ∧ extension = "mp4"
         ∨ Js.includes (negotiated env) "mp4" = false ∧ extension = "webm"))
  ∧ (∃ r,
       recordings (exec (App2.stopRecording env) st) = r :: recordings st
       ∧ name r = "Meeting " +:+ toLocaleString env).
Proof.
  intros Href Hactive. split.
  - destruct (App1_stop_run st env rec Href Hactive) as [(r & Hr & _ & _ & Hname) _].
    exists r. destruct (Js.includes (negotiated env) "mp4"); eauto 10.
  - destruct (App2_stop_run st env rec Href Hactive) as [(r & Hr & _ & _ & Hname) _].
    eauto.
Qed.

Lemma recording_name_of_stop_witness :
  let st := recording_session in
  let env := stop_env 10 in
  mediaRecorderRef st = Some session_recorder
  ∧ mr_state session_recorder ≠ st_inactive
  ∧ (∃ r extension,
        recordings (exec (App1.stopRecording env) st) = r :: recordings st
        ∧ name r = "Meeting_" +:+ Js.slice (toISOString env) 0 10 +:+ "_"
                   +:+ Js.toString (getHours env) +:+ Js.toString (getMinutes env)
                   +:+ "." +:+ extension
        ∧ (Js.includes (negotiated env) "mp4" = true ∧ extension = "mp4"
           ∨ Js.includes (negotiated env) "mp4" = false ∧ extension = "webm"))
  ∧ (∃ r,
       recordings (exec (App2.stopRecording env) st) = r :: recordings st
       ∧ name r = "Meeting " +:+ toLocaleString env).
Proof.
  assert (mediaRecorderRef recording_session = Some session_recorder) as Href
    by (vm_compute; reflexivity).
  assert (mr_state session_recorder ≠ st_inactive) as Hactive by (simpl; discriminate).
  split; [exact Href|]. split; [exact Hactive|].
  exact (recording_name_of_stop recording_session (stop_env 10) session_recorder Href Hactive).
Defined.

Example recording_name_demo :
  name <$> recordings (App1.run [ClickStop (stop_env 10)] recording_session)
  = ["Meeting_2026-11-02_95.mp4"].
Proof. vm_compute. reflexivity. Qed.

(** C8 as stated fails in the component that records the display audio
    only: after a start and a stop the one recording is named "Meeting "
    followed by the local date and time, which is not of the form
    [Meeting_<date>_<hour><minute>.<extension>]. *)
Lemma display_only_name_is_not_the_claimed_one :
  ∃ r,
    recordings (App2.run [ClickStart (start_env (DisplayGranted 1 [2]) (MicGranted [3]));
                          ClickStop (stop_env 10)] mounted) = [r]
    ∧ name r = "Meeting 11/2/2026, 9:05:00 AM"
    ∧ ¬ claimed_name (name r).
Proof.
  eexists. split; [vm_compute; reflexivity|]. split; [reflexivity|].
  intros (date & hour & minute & extension & E & _). cbn in E.
  rewrite !app_cons in E. discriminate E.
Qed.

(* ===================================================================== *)
(** ** The steps of the page and the list of recordings                   *)
(* ===================================================================== *)

Lemma start_keeps_recordings env st :
  recordings (exec (App1.startRecording env) st) = recordings st
  ∧ recordings (exec (App2.startRecording env) st) = recordings st.
Proof.
  destruct st. split.
  - unfold App1.startRecording, App1.cleanup.
    destruct (getDisplayMedia env) as [video [|a audio]|e|]; cbv zeta;
      rewrite ?getAudioTracks_display, ?getVideoTracks_display;
      destruct (getUserMedia env); unfold_monad; crunch_all; done.
  - unfold App2.startRecording, App2.stopStreams.
    destruct (getDisplayMedia env) as [video [|a audio]|e|]; cbv zeta;
      rewrite ?getAudioTracks_display, ?getVideoTracks_display;
      unfold_monad; crunch_all; done.
Qed.

Lemma handleAnalyze_frame alert_text target env st :
  let st' := exec (handleAnalyze alert_text target env) st in
  as_created <$> recordings st' = as_created <$> recordings st
  ∧ mediaRecorderRef st' = mediaRecorderRef st
  ∧ recorderState st' = recorderState st.
Proof.
  cbv zeta. unfold handleAnalyze. unfold_monad.
  destruct (find _ (recordings st)) as [recording|]; [|done]. cbn.
  destruct (GeminiService.analyzeAudio env (blob recording) (effects st)) as [log [a|e|]]; cbn.
  all: split_and!; try done.
  rewrite <-list_fmap_compose. apply list_fmap_ext. intros i r _. simpl.
  by destruct (bool_decide (id r = target)).
Qed.

Lemma handleDelete_sublist target st :
  let st' := exec (handleDelete target) st in
  sublist (as_created <$> recordings st') (as_created <$> recordings st)
  ∧ mediaRecorderRef st' = mediaRecorderRef st
  ∧ recorderState st' = recorderState st.
Proof.
  cbv zeta. unfold handleDelete. unfold_monad. cbn. split; [|done].
  apply fmap_sublist, sublist_filter.
Qed.


(** [startRecording] leaves the recorder of the store as it was, or puts a
    new one with no chunk there. *)
Lemma start_recorder env st :
  let fresh_or_same (st' : App) :=
    mediaRecorderRef st' = mediaRecorderRef st
    ∨ ∃ rec, mediaRecorderRef st' = Some rec ∧ chunks rec = [] in
  fresh_or_same (exec (App1.startRecording env) st)
  ∧ fresh_or_same (exec (App2.startRecording env) st).
Proof.
  destruct st. split.
  - unfold App1.startRecording, App1.cleanup.
    destruct (getDisplayMedia env) as [video [|a audio]|e|]; cbv zeta;
      rewrite ?getAudioTracks_display, ?getVideoTracks_display;
      destruct (getUserMedia env); unfold_monad; crunch_all; eauto.
  - unfold App2.startRecording, App2.stopStreams.
    destruct (getDisplayMedia env) as [video [|a audio]|e|]; cbv zeta;
      rewrite ?getAudioTracks_display, ?getVideoTracks_display;
      unfold_monad; crunch_all; eauto.
Qed.

Lemma adds_nothing ev st st' :
  recordings st' = recordings st → adds_nothing_or_stops ev st st'.
Proof. intros E. left. by rewrite E. Qed.

Lemma App1_stop_step ev st0 st env :
  stops ev → recordings st = recordings st0 → mediaRecorderRef st = mediaRecorderRef st0 →
  adds_nothing_or_stops ev st0 (exec (App1.stopRecording env) st).
Proof.
  intros Hev Hrs Href. unfold adds_nothing_or_stops. rewrite <-Hrs, <-Href.
  destruct (mediaRecorderRef st) as [rec|] eqn:Hrec.
  - destruct (decide (mr_state rec = st_inactive)) as [Hin|Hact].
    + left. destruct (stop_without_recorder st env) as [-> _]; [intros; congruence|done].
    + right. destruct (App1_stop_run st env rec Hrec Hact)
        as ((r & Hr & Hb & _) & _ & _ & rec' & Hr' & Hs & Hc).
      split; [done|]. split; [by exists rec|]. exists rec', r. by rewrite Hb, Hc.
  - left. destruct (stop_without_recorder st env) as [-> _]; [intros; congruence|done].
Qed.

Lemma App2_stop_step ev st0 st env :
  stops ev → recordings st = recordings st0 → mediaRecorderRef st = mediaRecorderRef st0 →
  adds_nothing_or_stops ev st0 (exec (App2.stopRecording env) st).
Proof.
  intros Hev Hrs Href. unfold adds_nothing_or_stops. rewrite <-Hrs, <-Href.
  destruct (mediaRecorderRef st) as [rec|] eqn:Hrec.
  - destruct (decide (mr_state rec = st_inactive)) as [Hin|Hact].
    + left. destruct (stop_without_recorder st env) as [_ ->]; [intros; congruence|done].
    + right. destruct (App2_stop_run st env rec Hrec Hact)
        as ((r & Hr & Hb & _) & _ & _ & rec' & Hr' & Hs & Hc).
      split; [done|]. split; [by exists rec|]. exists rec', r. by rewrite Hb, Hc.
  - left. destruct (stop_without_recorder st env) as [_ ->]; [intros; congruence|done].
Qed.

(** The steps that both components take in the same way. *)
Lemma shared_step ev st alert_text :
  match ev with
  | ClickDelete target => adds_nothing_or_stops ev st (exec (handleDelete target) st)
  | ClickAnalyze target env =>
      adds_nothing_or_stops ev st (exec (handleAnalyze alert_text target env) st)
  | IntervalFires _ => adds_nothing_or_stops ev st (exec tick st)
  | DataAvailable n =>
      ∀ rec, adds_nothing_or_stops ev st (exec (ondataavailable (recorded rec n)) st)
  | _ => True
  end.
Proof.
  destruct ev as [| | |target|target env| |interval|n]; try done.
  - left. apply (handleDelete_sublist target st).
  - left. by rewrite (proj1 (handleAnalyze_frame alert_text target env st)).
  - by apply adds_nothing.
  - intros rec. apply adds_nothing. unfold ondataavailable. unfold_monad.
    by destruct (0 <? blob_size (recorded rec n)).
Qed.

Lemma same_recorder_keeps_chunks st st' :
  mediaRecorderRef st' = mediaRecorderRef st →
  keeps_nonempty_chunks st → keeps_nonempty_chunks st'.
Proof. unfold keeps_nonempty_chunks. by intros ->. Qed.

Lemma started_keeps_chunks st st' :
  mediaRecorderRef st' = mediaRecorderRef st
  ∨ (∃ rec, mediaRecorderRef st' = Some rec ∧ chunks rec = []) →
  keeps_nonempty_chunks st → keeps_nonempty_chunks st'.
Proof.
  intros [Hsame|(rec & Href & Hnil)] Hst; [by eapply same_recorder_keeps_chunks|].
  intros rec'. rewrite Href. intros [= <-]. by rewrite Hnil.
Qed.

Lemma data_keeps_chunks st rec n :
  keeps_nonempty_chunks st →
  keeps_nonempty_chunks (exec (ondataavailable (recorded rec n)) st).
Proof.
  intros Hst. unfold ondataavailable. unfold_monad. cbn.
  destruct n as [|n]; cbn; [done|].
  intros rec'. cbn. destruct (mediaRecorderRef st) as [rec0|] eqn:Href; [|done].
  intros [= <-]. cbn. apply Forall_app. split; [by apply Hst|].
  constructor; [simpl; lia | done].
Qed.

Lemma step_keeps_chunks ev st :
  keeps_nonempty_chunks st →
  keeps_nonempty_chunks (App1.dispatch ev st) ∧ keeps_nonempty_chunks (App2.dispatch ev st).
Proof.
  intros Hst.
  destruct ev as [env|env|checked|target|target env|track env|interval|n];
    cbn [App1.dispatch App2.dispatch].
  - destruct (start_recorder env st) as [H1 H2].
    destruct (recorderState st); split; try done; by eapply started_keeps_chunks.
  - destruct (stop_keeps_nonempty_chunks st env Hst).
    by destruct (recorderState st).
  - by destruct (recorderState st).
  - case_bool_decide; [|done].
    destruct (handleDelete_sublist target st) as (_ & Hr & _).
    split; by eapply same_recorder_keeps_chunks.
  - destruct (handleAnalyze_frame "AI analysis failed. Check your connection or API Key."
                target env st) as (_ & Hr1 & _).
    destruct (handleAnalyze_frame "Failed to analyze audio. Please check your API Key."
                target env st) as (_ & Hr2 & _).
    split; case_bool_decide; try done; by eapply same_recorder_keeps_chunks.
  - case_bool_decide; [|done].
    by apply (stop_keeps_nonempty_chunks (upd_endedTracks _ st) env).
  - by case_bool_decide.
  - destruct (mediaRecorderRef st) as [rec|] eqn:Href; [|done].
    case_bool_decide; [|done]. split; by apply data_keeps_chunks.
Qed.

Lemma run_keeps_chunks evs st :
  keeps_nonempty_chunks st →
  keeps_nonempty_chunks (App1.run evs st) ∧ keeps_nonempty_chunks (App2.run evs st).
Proof.
  intros Hst. split; revert st Hst; induction evs as [|ev evs IH]; intros st Hst;
    try done; apply IH; by apply step_keeps_chunks.
Qed.

(** C9, as the code has it.  In both components a recording enters the
    list only where a recorder that was active has stopped: every step of
    the page either adds no recording, or it is a stop (the button, or the
    end of the shared video track), the recorder was active before the step
    and is inactive after it, the one new recording stands first in the
    list, and the size of its payload is the sum of the sizes of the chunks
    the recorder kept.  In every state the page reaches from the mounted
    component the chunks the recorder has kept are non-empty; nothing requires
    that there is one. *)
Theorem recordings_enter_only_at_stop :
  (enters_only_at_stop App1.dispatch
   ∧ ∀ evs, keeps_nonempty_chunks (App1.run evs mounted))
  ∧ (enters_only_at_stop App2.dispatch
     ∧ ∀ evs, keeps_nonempty_chunks (App2.run evs mounted)).
Proof.
  assert (keeps_nonempty_chunks mounted) as Hmounted by (by intros rec).
  split; (split; [|intros evs; by apply run_keeps_chunks]); intros ev st.
  - pose proof (shared_step ev st "AI analysis failed. Check your connection or API Key.")
      as Hshared.
    destruct ev as [env|env|checked|target|target env|track env|interval|n];
      cbn [App1.dispatch].
    + apply adds_nothing.
      destruct (recorderState st); try done; apply (start_keeps_recordings env st).
    + destruct (recorderState st); try (by apply adds_nothing).
      by apply App1_stop_step.
    + apply adds_nothing. by destruct (recorderState st).
    + case_bool_decide; [done | by apply adds_nothing].
    + case_bool_decide; [done | by apply adds_nothing].
    + case_bool_decide; [|by apply adds_nothing]. by apply App1_stop_step.
    + case_bool_decide; [done | by apply adds_nothing].
    + destruct (mediaRecorderRef st) as [rec|]; [|by apply adds_nothing].
      case_bool_decide; [apply Hshared | by apply adds_nothing].
  - pose proof (shared_step ev st "Failed to analyze audio. Please check your API Key.")
      as Hshared.
    destruct ev as [env|env|checked|target|target env|track env|interval|n];
      cbn [App2.dispatch].
    + apply adds_nothing.
      destruct (recorderState st); try done; apply (start_keeps_recordings env st).
    + destruct (recorderState st); try (by apply adds_nothing).
      all: by apply App2_stop_step.
    + by apply adds_nothing.
    + case_bool_decide; [done | by apply adds_nothing].
    + case_bool_decide; [done | by apply adds_nothing].
    + case_bool_decide; [|by apply adds_nothing]. by apply App2_stop_step.
    + case_bool_decide; [done | by apply adds_nothing].
    + destruct (mediaRecorderRef st) as [rec|]; [|by apply adds_nothing].
      case_bool_decide; [apply Hshared | by apply adds_nothing].
Qed.

(** C9 as stated fails: a stop right after the start, before any data
    has arrived, puts a recording with an empty payload into the list, in
    both components. *)
Lemma empty_payload_enters_the_list :
  let start := ClickStart (start_env (DisplayGranted 1 [2]) (MicGranted [3])) in
  let stop := ClickStop (stop_env 0) in
  (∃ r, recordings (App1.run [start; stop] mounted) = [r]
        ∧ blob_size (blob r) = 0)
  ∧ (∃ r, recordings (App2.run [start; stop] mounted) = [r]
          ∧ blob_size (blob r) = 0).
Proof. split; eexists; (split; [vm_compute; reflexivity | reflexivity]). Qed.

(* ===================================================================== *)
(** ** A session from its start to its stop                               *)
(* ===================================================================== *)







Example microphone_failure_demo :
  blob <$> recordings (App1.run [DataAvailable 10; IntervalFires 7; DataAvailable 12;
                                 ClickStop (stop_env 5)] recording_session)
  = [ {| blob_size := 27; blob_type := "video/mp4";
         blob_audio := [SystemAudio; SystemAudio; SystemAudio] |} ].
Proof. vm_compute. reflexivity. Qed.

(** [n] firings of a live interval add [n] to the timer and change nothing
    else. *)
Lemma interval_fires n st interval :
  interval ∈ intervals st →
  App1.run (replicate n (IntervalFires interval)) st = upd_timer (λ t, t + n) st
  ∧ App2.run (replicate n (IntervalFires interval)) st = upd_timer (λ t, t + n) st.
Proof.
  revert st. induction n as [|n IH]; intros st Hlive.
  - destruct st as [? ? t ? ? ? ? ? ? ? ? ? ? ? ? ?]. unfold upd_timer. cbn.
    by replace (t + 0) with t by lia.
  - unfold App1.run, App2.run in *. cbn [replicate foldl App1.dispatch App2.dispatch].
    rewrite !bool_decide_eq_true_2 by done.
    destruct (IH (exec tick st)) as [-> ->]; [by destruct st|].
    destruct st as [? ? t ? ? ? ? ? ? ? ? ? ? ? ? ?]. unfold tick, upd_timer. unfold_monad. cbn.
    by replace (t + 1 + n) with (t + S n) by lia.
Qed.

(** C1, what the code does.  [onstop] reads the constant [timer] of the
    render in which [startRecording] was called, not the counter the interval
    advances.  From the mounted component, a start, [n] ticks of the
    one-second interval and a stop: the counter shows [n] before the stop,
    the stop creates exactly one recording, and the duration of that
    recording is 0 whatever [n] is; in both components. *)
Theorem duration_is_the_timer_of_the_start (n : nat) :
  let start := ClickStart (start_env (DisplayGranted 1 [2]) (MicGranted [3])) in
  let ticks := replicate n (IntervalFires 7) in
  let stop := ClickStop (stop_env 10) in
  (timer (App1.run (start :: ticks) mounted) = n
   ∧ ∃ r, recordings (App1.run (start :: ticks ++ [stop]) mounted) = [r]
          ∧ duration r = 0)
  ∧ (timer (App2.run (start :: ticks) mounted) = n
     ∧ ∃ r, recordings (App2.run (start :: ticks ++ [stop]) mounted) = [r]
            ∧ duration r = 0).
Proof.
  intros start ticks stop. split.
  - set (st1 := App1.dispatch start mounted).
    assert (7 ∈ intervals st1) as Hlive by (vm_compute; set_solver).
    assert (App1.run (start :: ticks) mounted = upd_timer (λ t, t + n) st1) as Hticks.
    { unfold App1.run. cbn [foldl]. apply (interval_fires n st1 7 Hlive). }
    split; [by rewrite Hticks|].
    unfold App1.run in *. rewrite app_comm_cons, foldl_app, Hticks. cbn [foldl].
    destruct (App1_stop_run (upd_timer (λ t, t + n) st1) (stop_env 10)
                (new_started_recorder "audio/mp4" [SystemAudio; Microphone] 0))
      as ((r & Hr & _ & Hd & _) & _); [reflexivity | discriminate |].
    exists r. split; [exact Hr | exact Hd].
  - set (st1 := App2.dispatch start mounted).
    assert (7 ∈ intervals st1) as Hlive by (vm_compute; set_solver).
    assert (App2.run (start :: ticks) mounted = upd_timer (λ t, t + n) st1) as Hticks.
    { unfold App2.run. cbn [foldl]. apply (interval_fires n st1 7 Hlive). }
    split; [by rewrite Hticks|].
    unfold App2.run in *. rewrite app_comm_cons, foldl_app, Hticks. cbn [foldl].
    destruct (App2_stop_run (upd_timer (λ t, t + n) st1) (stop_env 10)
                (new_started_recorder "audio/webm;codecs=opus" [SystemAudio] 0))
      as ((r & Hr & _ & Hd & _) & _); [reflexivity | discriminate |].
    exists r. split; [exact Hr | exact Hd].
Qed.

Example five_seconds_demo :
  let evs := ClickStart (start_env (DisplayGranted 1 [2]) (MicGranted [3]))
             :: replicate 5 (IntervalFires 7) in
  timer (App1.run evs mounted) = 5
  ∧ duration <$> recordings (App1.run (evs ++ [ClickStop (stop_env 10)]) mounted) = [0]
  ∧ timer (App2.run evs mounted) = 5
  ∧ duration <$> recordings (App2.run (evs ++ [ClickStop (stop_env 10)]) mounted) = [0].
Proof. vm_compute. auto. Qed.

(* ===================================================================== *)
(** ** Further properties of the transcription service                    *)
(* ===================================================================== *)

Lemma before_comma_app header rest :
  comma_free header →
  GeminiService.before_comma (header +:+ "," +:+ rest) = header
  ∧ GeminiService.split_comma_1 (header +:+ "," +:+ rest)
    = Some (GeminiService.before_comma rest).
Proof.
  induction header as [|c header IH]; intros Hfree.
  - done.
  - destruct Hfree as [Hc Hfree]. rewrite app_cons. simpl.
    destruct (Ascii.eqb_spec c ","); [done|].
    destruct (IH Hfree) as [-> ->]. done.
Qed.

Lemma before_comma_free s : comma_free s → GeminiService.before_comma s = s.
Proof.
  induction s as [|c s IH]; [done|]. intros [Hc Hs]. simpl.
  destruct (Ascii.eqb_spec c ","); [done|]. by rewrite IH.
Qed.

Lemma split_comma_1_free s : comma_free s → GeminiService.split_comma_1 s = None.
Proof.
  induction s as [|c s IH]; [done|]. intros [Hc Hs]. simpl.
  destruct (Ascii.eqb_spec c ","); [done|]. by apply IH.
Qed.

(** X1.  [blobToBase64] reads the blob once.  When the reader's result is a
    data URL, a header with no comma, a comma and a payload with no comma,
    it returns the payload; when the result holds no comma at all it returns
    [undefined] (and does not throw); when the reader fails it throws the
    reader's error. *)
Theorem blobToBase64_returns_the_payload (env : GeminiService.Env) (blob0 : Blob)
    (log : list Effect) :
  (∀ header payload,
      GeminiService.fileReader env = inr (header +:+ "," +:+ payload) →
      comma_free header → comma_free payload →
      GeminiService.blobToBase64 env blob0 log
      = (log ++ [ReadAsDataURL blob0], Normal (Some payload)))
  ∧ (∀ result,
       GeminiService.fileReader env = inr result → comma_free result →
       GeminiService.blobToBase64 env blob0 log
       = (log ++ [ReadAsDataURL blob0], Normal None))
  ∧ (∀ e,
       GeminiService.fileReader env = inl e →
       GeminiService.blobToBase64 env blob0 log
       = (log ++ [ReadAsDataURL blob0], Throw e)).
Proof.
  unfold GeminiService.blobToBase64. split_and!.
  - intros header payload -> Hh Hp. unfold_monad.
    destruct (before_comma_app header payload Hh) as [_ ->].
    by rewrite (before_comma_free payload Hp).
  - intros result -> Hfree. unfold_monad. by rewrite (split_comma_1_free result Hfree).
  - intros e ->. by unfold_monad.
Qed.

(** X2.  [analyzeAudio] never swallows an error and never wraps one.  It
    either returns normally, with nothing written to [console.error]; or it
    throws, and then the last thing it did was to log the very error it
    throws, once, and that error is the missing-credential error, the
    reader's error or the remote call's error. *)
Theorem analyzeAudio_logs_and_rethrows (env : GeminiService.Env) (audioBlob : Blob)
    (log : list Effect) :
  (∃ added a,
      GeminiService.analyzeAudio env audioBlob log = (log ++ added, Normal a)
      ∧ Forall (λ effect, ¬ is_console_error effect) added)
  ∨ (∃ added e,
       GeminiService.analyzeAudio env audioBlob log
       = (log ++ added ++ [ConsoleError "Error analyzing audio with Gemini:" e], Throw e)
       ∧ Forall (λ effect, ¬ is_console_error effect) added
       ∧ (e = Error "API Key is missing. Please ensure your API key is configured."
          ∨ GeminiService.fileReader env = inl e
          ∨ GeminiService.remote env = inl e)).
Proof.
  unfold GeminiService.analyzeAudio, GeminiService.blobToBase64.
  destruct (GeminiService.key_missing (GeminiService.API_KEY env)) eqn:Hkey.
  - right. exists [], (Error "API Key is missing. Please ensure your API key is configured.").
    unfold_monad. split_and!; [done | constructor | by left].
  - destruct (GeminiService.fileReader env) as [e|result] eqn:Hreader.
    + right. exists [ReadAsDataURL audioBlob], e. unfold_monad. cbn.
      rewrite <-app_assoc. split_and!; [done | | by right; left].
      constructor; [simpl; tauto | constructor].
    + destruct (GeminiService.remote env) as [e|response] eqn:Hremote.
      * right. eexists [ReadAsDataURL audioBlob; GenerateContent _ _ _ _ _], e.
        unfold_monad. cbn. rewrite <-!app_assoc.
        split_and!; [done | | by right; right].
        repeat constructor; simpl; tauto.
      * left. eexists [ReadAsDataURL audioBlob; GenerateContent _ _ _ _ _], _.
        unfold_monad. cbn. rewrite <-!app_assoc. split; [done|].
        repeat constructor; simpl; tauto.
Qed.

(** X3.  With a credential, [analyzeAudio] reads the payload first and calls
    the remote model at most once: never when the payload cannot be read,
    and exactly once otherwise, with the credential, the model
    "gemini-2.5-flash", the blob's type (or "audio/webm" when the blob has
    none), what [blobToBase64] returned and the prompt.  Nothing is retried
    when the remote call fails. *)
Theorem analyzeAudio_calls_the_model_once (env : GeminiService.Env) (audioBlob : Blob)
    (log : list Effect) (key : string) :
  GeminiService.API_KEY env = Some key → key ≠ "" →
  ∃ added c,
    GeminiService.analyzeAudio env audioBlob log = (log ++ added, c)
    ∧ match GeminiService.fileReader env with
      | inl _ => filter reaches_out added = [ReadAsDataURL audioBlob]
      | inr result =>
          filter reaches_out added
          = [ReadAsDataURL audioBlob;
             GenerateContent key "gemini-2.5-flash"
               (Js.or_else (blob_type audioBlob) "audio/webm")
               (GeminiService.split_comma_1 result) GeminiService.prompt]
      end.
Proof.
  intros Hk Hne. unfold GeminiService.analyzeAudio, GeminiService.blobToBase64.
  rewrite Hk.
  assert (GeminiService.key_missing (Some key) = false) as ->.
  { simpl. destruct key; [done|]. by rewrite bool_decide_eq_false_2. }
  destruct (GeminiService.fileReader env) as [e|result].
  - eexists [_; _], _. unfold_monad. cbn. rewrite <-app_assoc. split; done.
  - destruct (GeminiService.remote env) as [e|response].
    + eexists [_; _; _], _. unfold_monad. cbn. rewrite <-!app_assoc. split; done.
    + eexists [_; _], _. unfold_monad. cbn. rewrite <-!app_assoc. split; done.
Qed.

Lemma analyzeAudio_calls_the_model_once_witness :
  GeminiService.API_KEY env_remote_fails = Some "key" ∧ "key" ≠ ""
  ∧ ∃ added c,
      GeminiService.analyzeAudio env_remote_fails some_blob [] = ([] ++ added, c)
      ∧ match GeminiService.fileReader env_remote_fails with
        | inl _ => filter reaches_out added = [ReadAsDataURL some_blob]
        | inr result =>
            filter reaches_out added
            = [ReadAsDataURL some_blob;
               GenerateContent "key" "gemini-2.5-flash"
                 (Js.or_else (blob_type some_blob) "audio/webm")
                 (GeminiService.split_comma_1 result) GeminiService.prompt]
        end.
Proof.
  assert ("key" ≠ "") as Hne by discriminate.
  split; [reflexivity|]. split; [exact Hne|].
  exact (analyzeAudio_calls_the_model_once env_remote_fails some_blob [] "key" eq_refl Hne).
Defined.

(* ===================================================================== *)
(** ** [formatTime]                                                       *)
(* ===================================================================== *)

Lemma two_digits n :
  n < 100 → padStart (Js.toString n) 2 "0" = String (digit (n / 10)) (String (digit (n mod 10)) "").
Proof.
  intros Hn. do 100 (destruct n as [|n]; [vm_compute; reflexivity|]). lia.
Qed.

(** X4.  Below one hundred minutes [formatTime] writes exactly five
    characters: the two digits of the minutes, a colon, the two digits of the
    seconds within the minute. *)
Theorem formatTime_is_mm_ss (seconds : nat) :
  seconds < 100 * 60 →
  formatTime seconds
  = String (digit (seconds / 60 / 10)) (String (digit (seconds / 60 mod 10))
      (String ":" (String (digit (seconds mod 60 / 10))
         (String (digit (seconds mod 60 mod 10)) "")))).
Proof.
  intros Hs. unfold formatTime.
  assert (seconds / 60 < 100) as Hmins by (apply Nat.Div0.div_lt_upper_bound; lia).
  assert (seconds mod 60 < 100) as Hsecs.
  { pose proof (Nat.mod_upper_bound seconds 60). lia. }
  by rewrite (two_digits _ Hmins), (two_digits _ Hsecs).
Qed.

Lemma formatTime_is_mm_ss_witness :
  75 < 100 * 60
  ∧ formatTime 75
    = String (digit (75 / 60 / 10)) (String (digit (75 / 60 mod 10))
        (String ":" (String (digit (75 mod 60 / 10))
           (String (digit (75 mod 60 mod 10)) "")))).
Proof. split; [lia | apply (formatTime_is_mm_ss 75); lia]. Defined.

Example formatTime_demo :
  formatTime 0 = "00:00" ∧ formatTime 75 = "01:15" ∧ formatTime (99 * 60 + 59) = "99:59"
  ∧ formatTime (100 * 60) = "100:00".
Proof. vm_compute. auto. Qed.

Lemma read_toString n : read_decimal (Js.toString n) = Some n.
Proof.
  unfold read_decimal, Js.toString, NilZero.string_of_uint.
  pose proof (DecimalNat.Unsigned.of_to n) as Hn.
  destruct (Nat.to_uint n) as [|d|d|d|d|d|d|d|d|d|d] eqn:Hd;
    [by rewrite <-Hn|..]; rewrite NilEmpty.usu; simpl; by rewrite <-Hn.
Qed.

Lemma read_zero s : read_decimal (String "0" s) = read_decimal s.
Proof.
  unfold read_decimal. simpl. destruct (NilEmpty.uint_of_string s) as [d|]; [|done].
  simpl. f_equal.
Qed.

Lemma read_padStart s n : read_decimal (padStart s n "0") = read_decimal s.
Proof.
  unfold padStart. induction (n - String.length s) as [|k IH]; [done|].
  simpl. by rewrite read_zero.
Qed.

Lemma uint_colon_free d : colon_free (NilEmpty.string_of_uint d).
Proof. induction d; simpl; split; done. Qed.

Lemma toString_colon_free n : colon_free (Js.toString n).
Proof.
  unfold Js.toString, NilZero.string_of_uint.
  destruct (Nat.to_uint n) eqn:Hn; try (rewrite <-Hn; apply uint_colon_free). done.
Qed.

Lemma padStart_colon_free s n : colon_free s → colon_free (padStart s n "0").
Proof.
  intros Hs. unfold padStart. induction (n - String.length s) as [|k IH]; [done|].
  simpl. split; done.
Qed.

(** Splitting at the first colon. *)
Lemma split_at_colon a b a' b' :
  colon_free a → colon_free a' →
  a +:+ ":" +:+ b = a' +:+ ":" +:+ b' → a = a' ∧ b = b'.
Proof.
  revert a'. induction a as [|c a IH]; intros [|c' a'] Ha Ha' E.
  - by injection E.
  - rewrite app_cons in E. injection E as <- _. by destruct Ha'.
  - rewrite app_cons in E. injection E as -> _. by destruct Ha.
  - rewrite !app_cons in E. injection E as -> E.
    destruct Ha as [_ Ha], Ha' as [_ Ha'].
    destruct (IH a' Ha Ha' E) as [-> ->]. done.
Qed.

(** X5.  [formatTime] never writes two durations the same way. *)
Theorem formatTime_inj (a b : nat) : formatTime a = formatTime b → a = b.
Proof.
  unfold formatTime. intros E.
  apply split_at_colon in E as [Hm Hs];
    try (apply padStart_colon_free, toString_colon_free).
  apply (f_equal read_decimal) in Hm, Hs.
  rewrite !read_padStart, !read_toString in Hm, Hs.
  assert (a / 60 = b / 60) as Hm' by congruence.
  assert (a mod 60 = b mod 60) as Hs' by congruence.
  pose proof (Nat.div_mod_eq a 60). pose proof (Nat.div_mod_eq b 60). lia.
Qed.

Lemma formatTime_inj_witness : formatTime 75 = formatTime (60 + 15) ∧ 75 = 60 + 15.
Proof. split; [reflexivity | apply (formatTime_inj 75 (60 + 15)); reflexivity]. Defined.
(* ===================================================================== *)
(** ** How [startRecording] ends                                          *)
(* ===================================================================== *)

Lemma or_else_nonempty a b : b ≠ "" → Js.or_else a b ≠ "".
Proof. unfold Js.or_else, Js.truthy. by destruct a. Qed.

Lemma or_else_truthy a b : Js.truthy a = true → Js.or_else a b ≠ "".
Proof. unfold Js.or_else, Js.truthy. by destruct a. Qed.

Lemma difference_twice (X Y : gset nat) : X ∖ Y ∖ Y = X ∖ Y.
Proof. apply set_eq. intros x. rewrite !elem_of_difference. tauto. Qed.

(** Replaces the tests on the name of an error by what the context knows. *)
Ltac decide_err_name :=
  repeat match goal with
         | H : err_name _ = _ |- _ => rewrite (bool_decide_eq_true_2 _ H)
         | H : err_name _ ≠ _ |- _ => rewrite (bool_decide_eq_false_2 _ H)
         end.

Ltac start_goal :=
  first [ done
        | by eauto 10
        | by apply or_else_nonempty
        | apply or_else_truthy; by destruct (Js.truthy _)
        | intros ? [= <-]; (done || tauto)
        | intros ? ? [= _ <-]; done ].

Ltac start_outcome :=
  first [ left; split_and!; start_goal
        | right; split_and!; try done;
          first [ by intros ? ? [= _ <-]
                | left; split_and!; start_goal
                | right; eexists; split_and!; start_goal ] ].

(** [part_001]: the call ends recording, with a new recorder and a new
    interval, or idle, with the recorder and the counter it found. *)
Lemma App1_start_outcome env st :
  let st' := exec (App1.startRecording env) st in
  (recorderState st' = RECORDING ∧ errorMsg st' = None ∧ timer st' = 0
   ∧ (∃ video audio, getDisplayMedia env = DisplayGranted video audio ∧ audio ≠ [])
   ∧ (∃ rec, mediaRecorderRef st' = Some rec ∧ mr_state rec = st_recording
             ∧ chunks rec = [] ∧ onstop_timer rec = timer st)
   ∧ timerIntervalRef st' = Some (setInterval env)
   ∧ intervals st' = cleared st ∪ {[setInterval env]})
  ∨ (recorderState st' = IDLE ∧ timer st' = timer st
     ∧ mediaRecorderRef st' = mediaRecorderRef st
     ∧ timerIntervalRef st' = timerIntervalRef st
     ∧ intervals st' = cleared st
     ∧ (∀ video audio, getDisplayMedia env = DisplayGranted video audio → audio = [])
     ∧ ((errorMsg st' = None
         ∧ ∃ e, getDisplayMedia env = DisplayRejected e ∧ err_name e = "NotAllowedError")
        ∨ (∃ m, errorMsg st' = Some m ∧ m ≠ ""
                ∧ ∀ e, getDisplayMedia env = DisplayRejected e → err_name e ≠ "NotAllowedError"))).
Proof.
  cbv zeta. unfold App1.startRecording, App1.cleanup, cleared.
  destruct (getDisplayMedia env) as [video [|a audio]|e|] eqn:Hd; cbv zeta;
    rewrite ?getAudioTracks_display, ?getVideoTracks_display.
  3: destruct (decide (err_name e = "NotAllowedError")) as [Hn|Hn].
  all: destruct st as [? ? ? ? ? ? ? ? ? ? [[|i]|] ? ? ? ? ?];
    destruct (getUserMedia env); unfold_monad; cbn; decide_err_name; crunch_all.
  all: rewrite ?difference_twice; start_outcome.
Qed.

(** [part_002] *)
Lemma App2_start_outcome env st :
  let st' := exec (App2.startRecording env) st in
  (recorderState st' = RECORDING ∧ errorMsg st' = None ∧ timer st' = 0
   ∧ (∃ video audio, getDisplayMedia env = DisplayGranted video audio ∧ audio ≠ [])
   ∧ (∃ rec, mediaRecorderRef st' = Some rec ∧ mr_state rec = st_recording
             ∧ chunks rec = [] ∧ onstop_timer rec = timer st)
   ∧ timerIntervalRef st' = Some (setInterval env)
   ∧ intervals st' = intervals st ∪ {[setInterval env]})
  ∨ (recorderState st' = IDLE ∧ timer st' = timer st
     ∧ mediaRecorderRef st' = mediaRecorderRef st
     ∧ timerIntervalRef st' = timerIntervalRef st
     ∧ intervals st' = intervals st
     ∧ (∀ video audio, getDisplayMedia env = DisplayGranted video audio → audio = [])
     ∧ ((errorMsg st' = None
         ∧ ∃ e, getDisplayMedia env = DisplayRejected e ∧ cancelled e)
        ∨ (∃ m, errorMsg st' = Some m ∧ m ≠ ""
                ∧ ∀ e, getDisplayMedia env = DisplayRejected e → ¬ cancelled e))).
Proof.
  cbv zeta. unfold App2.startRecording, App2.stopStreams, cancelled.
  destruct (getDisplayMedia env) as [video [|a audio]|e|] eqn:Hd; cbv zeta;
    rewrite ?getAudioTracks_display, ?getVideoTracks_display.
  3: destruct (decide (err_name e = "NotAllowedError")) as [Hn|Hn],
       (decide (err_name e = "AbortError")) as [Ha|Ha].
  all: destruct st; unfold_monad; cbn; decide_err_name; crunch_all.
  all: start_outcome.
Qed.


(* ===================================================================== *)
(** ** The state variable, the recorder, the counter and the interval     *)
(* ===================================================================== *)

Lemma same_session_refl st : same_session st st.
Proof. by repeat split. Qed.

Lemma handleAnalyze_session alert_text target env st :
  same_session st (exec (handleAnalyze alert_text target env) st)
  ∧ timer (exec (handleAnalyze alert_text target env) st) = timer st.
Proof.
  unfold handleAnalyze, same_session. unfold_monad.
  destruct (find _ (recordings st)) as [recording|]; [|done]. cbn.
  by destruct (GeminiService.analyzeAudio env (blob recording) (effects st)) as [log [a|e|]].
Qed.

(** A quiet event leaves the session as it is; the counter moves only when a
    live interval fires. *)
Lemma quiet_step ev st :
  quiet ev →
  let quiet_to (st' : App) :=
    same_session st st'
    ∧ (timer st' = timer st ∨ ∃ i, ev = IntervalFires i ∧ i ∈ intervals st) in
  quiet_to (App1.dispatch ev st) ∧ quiet_to (App2.dispatch ev st).
Proof.
  destruct ev as [| |checked|target|target env| |i|n]; try done; intros _; cbn.
  - destruct (recorderState st) eqn:E; cbn; unfold same_session; cbn; rewrite ?E;
      split_and!; try done; by left.
  - destruct (bool_decide _); unfold same_session; cbn; split_and!; try done; by left.
  - split.
    + destruct (bool_decide _); [|by auto using same_session_refl].
      destruct (handleAnalyze_session "AI analysis failed. Check your connection or API Key."
                  target env st); auto.
    + destruct (bool_decide _); [|by auto using same_session_refl].
      destruct (handleAnalyze_session "Failed to analyze audio. Please check your API Key."
                  target env st); auto.
  - destruct (bool_decide _) eqn:E; [|by auto using same_session_refl].
    apply bool_decide_eq_true in E. unfold same_session; cbn.
    split_and!; try done; right; by exists i.
  - destruct (mediaRecorderRef st) as [rec|] eqn:Href;
      [|by auto using same_session_refl].
    destruct (bool_decide _); [|by auto using same_session_refl].
    unfold ondataavailable, same_session. unfold_monad.
    destruct (0 <? _); cbn; rewrite Href; cbn; split_and!; try done; by left.
Qed.

Lemma agree_session st st' : same_session st st' → agree st → agree st'.
Proof.
  intros (Hs & Hr & _) [[Hi Hrec]|[Hi (rec & Href & Hrec)]]; [left|right]; rewrite Hs.
  - split; [done|]. intros rec' Href'. rewrite Href' in Hr.
    destruct (mediaRecorderRef st) as [rec|]; [|done]. injection Hr as ->. by apply Hrec.
  - split; [done|]. rewrite Href in Hr.
    destruct (mediaRecorderRef st') as [rec'|]; [|done]. injection Hr as Hr. eauto with congruence.
Qed.

Lemma stop_inactive st env :
  (∀ rec, mediaRecorderRef st = Some rec → mr_state rec = st_inactive) →
  exec (App1.stopRecording env) st = st
  ∧ exec (App2.stopRecording env) st = exec clear_timerInterval st.
Proof.
  intros Hidle. unfold App1.stopRecording, App2.stopRecording. unfold_monad.
  destruct (mediaRecorderRef st) as [rec|] eqn:Href.
  - rewrite !bool_decide_eq_false_2 by (rewrite (Hidle rec); auto).
    cbn. by destruct (timerIntervalRef st) as [[|i]|].
  - cbn. by destruct (timerIntervalRef st) as [[|i]|].
Qed.

Lemma clear_timerInterval_session st :
  let st' := exec clear_timerInterval st in
  recorderState st' = recorderState st ∧ mediaRecorderRef st' = mediaRecorderRef st
  ∧ timer st' = timer st ∧ timerIntervalRef st' = timerIntervalRef st
  ∧ intervals st' = cleared st.
Proof.
  unfold cleared. unfold_monad.
  destruct (timerIntervalRef st) as [[|i]|] eqn:E; cbn; by rewrite ?E.
Qed.

Lemma stop_active st env rec :
  mediaRecorderRef st = Some rec → mr_state rec ≠ st_inactive →
  let stopped (st' : App) :=
    recorderState st' = IDLE ∧ timer st' = 0
    ∧ timerIntervalRef st' = timerIntervalRef st ∧ intervals st' = cleared st
    ∧ ∃ rec', mediaRecorderRef st' = Some rec' ∧ mr_state rec' = st_inactive in
  stopped (exec (App1.stopRecording env) st) ∧ stopped (exec (App2.stopRecording env) st).
Proof.
  intros Href Hactive. cbv zeta.
  unfold App1.stopRecording, App2.stopRecording, recorder_stop, recorder_stopped,
    ondataavailable, App1.onstop, App1.cleanup, App2.onstop, App2.stopStreams, cleared.
  unfold_monad. revert Href. destruct st; cbn. intros ->.
  rewrite !bool_decide_eq_true_2 by done. clear Hactive.
  split; destruct (lastData env); crunch; split_and!; try done; eauto.
Qed.

Lemma elem_of_nonempty (x : nat) (X : gset nat) : x ∈ X → X ≠ ∅.
Proof. intros Hx E. rewrite E in Hx. by apply elem_of_empty in Hx. Qed.

Lemma cleared_empty st : intervals st = ∅ → cleared st = ∅.
Proof.
  unfold cleared. intros ->. destruct (timerIntervalRef st) as [[|i]|]; try done.
  apply set_eq. intros x. rewrite elem_of_difference, !elem_of_empty. tauto.
Qed.

Lemma cleared_single st i :
  i ≠ 0 → timerIntervalRef st = Some i → intervals st = {[i]} → cleared st = ∅.
Proof.
  unfold cleared. intros Hi -> ->. destruct i as [|i]; [done|].
  apply difference_diag_L.
Qed.

(** After [stopRecording] the page is idle over no active recorder, with its
    counter and its intervals at rest. *)
Lemma stop_step st env :
  agree st →
  let at_rest (st' : App) :=
    (recorderState st' = IDLE
     ∧ ∀ rec, mediaRecorderRef st' = Some rec → mr_state rec = st_inactive)
    ∧ (settled st → timer st' = 0 ∧ intervals st' = ∅) in
  at_rest (exec (App1.stopRecording env) st) ∧ at_rest (exec (App2.stopRecording env) st).
Proof.
  intros [[Hs Hrec]|[Hs (rec & Href & Hrec)]]; cbv zeta.
  - destruct (stop_inactive st env Hrec) as [-> ->].
    destruct (clear_timerInterval_session st) as (-> & -> & -> & _ & ->).
    split_and!; try done; intros [Hidle _]; destruct (Hidle Hs) as [? ?];
      auto using cleared_empty.
  - assert (mr_state rec ≠ st_inactive) as Hactive by congruence.
    destruct (stop_active st env rec Href Hactive)
      as [(-> & -> & _ & -> & rec1 & -> & Hrec1) (-> & -> & _ & -> & rec2 & -> & Hrec2)].
    split_and!; try done; try (intros ? [= <-]; done).
    all: intros [_ Hrun]; destruct (Hrun Hs) as (i & Hi & Hint & Hlive);
      eauto using cleared_single.
Qed.

Lemma agree_IDLE st :
  recorderState st = IDLE →
  (∀ rec, mediaRecorderRef st = Some rec → mr_state rec = st_inactive) → agree st.
Proof. by left. Qed.

Lemma settled_IDLE st :
  recorderState st = IDLE → timer st = 0 → intervals st = ∅ → settled st.
Proof. intros Hs ? ?. split; [done|]. by rewrite Hs. Qed.

Lemma start_step env st :
  recorderState st = IDLE →
  (∀ rec, mediaRecorderRef st = Some rec → mr_state rec = st_inactive) →
  let started (st' : App) :=
    agree st' ∧ (setInterval env ≠ 0 → settled st → settled st') in
  started (exec (App1.startRecording env) st) ∧ started (exec (App2.startRecording env) st).
Proof.
  intros Hs Hrec. cbv zeta. split.
  - destruct (App1_start_outcome env st)
      as [(Hs' & _ & _ & _ & (rec' & Href' & Hrec' & _) & Hint & Hlive)
         |(Hs' & Ht & Href & _ & Hlive & _)].
    + split; [right; by eauto|]. intros Hi [Hidle _]. destruct (Hidle Hs) as [_ Hempty].
      split; [by rewrite Hs'|]. intros _. exists (setInterval env).
      rewrite Hlive, cleared_empty by done. split_and!; try done. apply (left_id_L ∅ (∪)).
    + split; [left; by rewrite Href|]. intros _ [Hidle _]. destruct (Hidle Hs) as [? ?].
      apply settled_IDLE; rewrite ?Ht, ?Hlive; auto using cleared_empty.
  - destruct (App2_start_outcome env st)
      as [(Hs' & _ & _ & _ & (rec' & Href' & Hrec' & _) & Hint & Hlive)
         |(Hs' & Ht & Href & _ & Hlive & _)].
    + split; [right; by eauto|]. intros Hi [Hidle _]. destruct (Hidle Hs) as [_ Hempty].
      split; [by rewrite Hs'|]. intros _. exists (setInterval env).
      rewrite Hlive, Hempty. split_and!; try done. apply (left_id_L ∅ (∪)).
    + split; [left; by rewrite Href|]. intros _ [Hidle _]. destruct (Hidle Hs) as [? ?].
      apply settled_IDLE; rewrite ?Ht, ?Hlive; auto.
Qed.

Lemma settled_session st st' :
  same_session st st' →
  timer st' = timer st ∨ intervals st ≠ ∅ → settled st → settled st'.
Proof.
  intros (Hs & _ & Hint & Hlive & _) Ht [Hidle Hrun]. unfold settled.
  rewrite Hs, Hint, Hlive. split; [|done].
  intros Hi. destruct (Hidle Hi) as [? ?]. destruct Ht; [split; congruence|done].
Qed.

(** One step of either page keeps both facts. *)
Lemma page_step ev st :
  agree st →
  let kept (st' : App) := agree st' ∧ (platform_interval ev → settled st → settled st') in
  kept (App1.dispatch ev st) ∧ kept (App2.dispatch ev st).
Proof.
  intros Hst. cbv zeta.
  destruct (decide (quiet ev)) as [Hq|Hq].
  { destruct (quiet_step ev st Hq) as [[H1 T1] [H2 T2]].
    split; (split; [by eapply agree_session|]); intros _; apply settled_session; try done.
    - destruct T1 as [|(i & _ & Hi)]; eauto using elem_of_nonempty.
    - destruct T2 as [|(i & _ & Hi)]; eauto using elem_of_nonempty. }
  destruct ev as [env|env| | | |track env| |]; try (by destruct Hq); clear Hq; cbn.
  - destruct Hst as [[Hs Hrec]|[Hs Hrec]]; rewrite Hs.
    + by apply start_step.
    + split; (split; [by right|done]).
  - destruct (stop_step st env Hst) as [[[H1 R1] S1] [[H2 R2] S2]].
    destruct Hst as [[Hs Hrec]|[Hs Hrec]]; rewrite Hs.
    + split; (split; [by left|done]).
    + split; (split; [by left|]); intros _ Hset; apply settled_IDLE; try done;
        by (apply S1 || apply S2).
  - destruct (bool_decide _); [|by split].
    set (st0 := upd_endedTracks _ st).
    assert (agree st0) as Hst0 by done.
    destruct (stop_step st0 env Hst0) as [[[H1 R1] S1] [[H2 R2] S2]].
    split; (split; [by left|]); intros _ Hset; apply settled_IDLE; try done;
      by (apply S1 || apply S2).
Qed.


Lemma mounted_agree : agree mounted.
Proof. by left. Qed.




(* ===================================================================== *)
(** ** Stopping twice, and what a stop releases                           *)
(* ===================================================================== *)

Lemma upd_intervals_same f st : f (intervals st) = intervals st → upd_intervals f st = st.
Proof. destruct st; unfold upd_intervals; cbn. intros E. by rewrite E. Qed.

Lemma clear_timerInterval_twice st :
  exec clear_timerInterval (exec clear_timerInterval st) = exec clear_timerInterval st.
Proof.
  unfold_monad. destruct (timerIntervalRef st) as [[|i]|] eqn:E; cbn; rewrite ?E; try done.
  cbn. apply upd_intervals_same. cbn. apply difference_twice.
Qed.

Lemma clear_timerInterval_same st :
  cleared st = intervals st → exec clear_timerInterval st = st.
Proof.
  unfold cleared. unfold_monad. destruct (timerIntervalRef st) as [[|i]|]; try done.
  cbn. intros E. apply upd_intervals_same. exact E.
Qed.

(** X10.  A second [stopRecording] changes nothing, on either page; and
    where no recorder is active the first one changes nothing either on the
    page of [part_001], and adds no recording on the page of [part_002]. *)
Theorem stopRecording_twice st env env' :
  exec (App1.stopRecording env') (exec (App1.stopRecording env) st)
  = exec (App1.stopRecording env) st
  ∧ exec (App2.stopRecording env') (exec (App2.stopRecording env) st)
    = exec (App2.stopRecording env) st
  ∧ ((∀ rec, mediaRecorderRef st = Some rec → mr_state rec = st_inactive) →
     exec (App1.stopRecording env) st = st
     ∧ recordings (exec (App2.stopRecording env) st) = recordings st).
Proof.
  split_and!.
  - destruct (mediaRecorderRef st) as [rec|] eqn:Href.
    + destruct (decide (mr_state rec = st_inactive)) as [Hin|Hact].
      * destruct (stop_inactive st env) as [-> _]; [congruence|].
        by destruct (stop_inactive st env') as [-> _]; [congruence|].
      * destruct (stop_active st env rec Href Hact) as [(_ & _ & _ & _ & rec' & Hr & Hs) _].
        apply stop_inactive. congruence.
    + destruct (stop_inactive st env) as [-> _]; [congruence|].
      by destruct (stop_inactive st env') as [-> _]; [congruence|].
  - destruct (mediaRecorderRef st) as [rec|] eqn:Href.
    + destruct (decide (mr_state rec = st_inactive)) as [Hin|Hact].
      * destruct (stop_inactive st env) as [_ ->]; [congruence|].
        destruct (clear_timerInterval_session st) as (_ & Hr & _).
        destruct (stop_inactive (exec clear_timerInterval st) env') as [_ ->]; [congruence|].
        apply clear_timerInterval_twice.
      * destruct (stop_active st env rec Href Hact)
          as [_ (_ & _ & Hint & Hlive & rec' & Hr & Hs)].
        destruct (stop_inactive (exec (App2.stopRecording env) st) env') as [_ ->];
          [congruence|].
        apply clear_timerInterval_same. unfold cleared at 1. rewrite Hint, Hlive. unfold cleared.
        destruct (timerIntervalRef st) as [[|i]|]; auto using difference_twice.
    + destruct (stop_inactive st env) as [_ ->]; [congruence|].
      destruct (clear_timerInterval_session st) as (_ & Hr & _).
      destruct (stop_inactive (exec clear_timerInterval st) env') as [_ ->]; [congruence|].
      apply clear_timerInterval_twice.
  - intros Hidle. split; [by apply stop_inactive|]. by apply stop_without_recorder.
Qed.

Lemma same_session_trans st1 st2 st3 :
  same_session st1 st2 → same_session st2 st3 → same_session st1 st3.
Proof. unfold same_session. intuition congruence. Qed.

(** While the page records, only a stop touches the session. *)
Lemma recording_step ev st :
  recorderState st = RECORDING → ¬ stops ev →
  same_session st (App1.dispatch ev st) ∧ same_session st (App2.dispatch ev st).
Proof.
  intros Hs Hev. destruct (decide (quiet ev)) as [Hq|Hq].
  - destruct (quiet_step ev st Hq) as [[? _] [? _]]. done.
  - destruct ev; try (by destruct Hq); try (by destruct Hev).
    cbn. rewrite Hs. split; apply same_session_refl.
Qed.

Lemma recording_run evs st :
  recorderState st = RECORDING → Forall (λ ev, ¬ stops ev) evs →
  same_session st (App1.run evs st) ∧ same_session st (App2.run evs st).
Proof.
  intros Hs Hevs. split; revert st Hs; induction Hevs as [|ev evs Hev _ IH]; intros st Hs;
    try apply same_session_refl; cbn.
  - destruct (recording_step ev st Hs Hev) as [H1 _].
    eapply same_session_trans; [exact H1|]. apply IH. destruct H1 as [-> _]. done.
  - destruct (recording_step ev st Hs Hev) as [_ H2].
    eapply same_session_trans; [exact H2|]. apply IH. destruct H2 as [-> _]. done.
Qed.

(** What a stop over an active recorder releases. *)
Lemma App1_stop_releases st env rec :
  mediaRecorderRef st = Some rec → mr_state rec ≠ st_inactive →
  let st' := exec (App1.stopRecording env) st in
  activeStreams st' = []
  ∧ endedTracks st' = endedTracks st ∪ list_to_set (track_id <$> concat (activeStreams st))
  ∧ audioContextRef st' = closed (audioContextRef st)
  ∧ intervals st' = cleared st.
Proof.
  intros Href Hactive. cbv zeta.
  unfold App1.stopRecording, recorder_stop, recorder_stopped,
    ondataavailable, App1.onstop, App1.cleanup, cleared, closed.
  unfold_monad. revert Href. destruct st; cbn. intros ->.
  rewrite !bool_decide_eq_true_2 by done. clear Hactive.
  destruct (lastData env); crunch; split_and!; done.
Qed.

Lemma App2_stop_releases st env rec :
  mediaRecorderRef st = Some rec → mr_state rec ≠ st_inactive →
  let st' := exec (App2.stopRecording env) st in
  endedTracks st' = endedTracks st ∪ tracks_of (systemStreamRef st) ∪ tracks_of (mixedStreamRef st)
  ∧ audioContextRef st' = closed (audioContextRef st)
  ∧ intervals st' = cleared st.
Proof.
  intros Href Hactive. cbv zeta.
  unfold App2.stopRecording, recorder_stop, recorder_stopped,
    ondataavailable, App2.onstop, App2.stopStreams, cleared, closed, tracks_of.
  unfold_monad. revert Href. destruct st; cbn. intros ->.
  rewrite !bool_decide_eq_true_2 by done. clear Hactive.
  destruct (lastData env); crunch; split_and!; try done.
  all: by rewrite ?(right_id_L ∅ (∪)).
Qed.

(** What a start that succeeds acquires. *)
Lemma App1_start_acquires st env video audio :
  getDisplayMedia env = DisplayGranted video audio → audio ≠ [] →
  let st' := exec (App1.startRecording env) st in
  recorderState st' = RECORDING
  ∧ (∃ rec, mediaRecorderRef st' = Some rec ∧ mr_state rec = st_recording)
  ∧ activeStreams st'
    = display_stream video audio
      :: (if includeMic st
          then match getUserMedia env with
               | MicGranted mic => [microphone_stream mic]
               | MicRejected _ => []
               end
          else [])
  ∧ audioContextRef st' = Some ctx_open
  ∧ timerIntervalRef st' = Some (setInterval env)
  ∧ setInterval env ∈ intervals st'.
Proof.
  intros Hd Haudio. cbv zeta. unfold App1.startRecording, App1.cleanup.
  rewrite Hd. cbv zeta. rewrite getAudioTracks_display, getVideoTracks_display.
  destruct audio as [|a audio]; [done|]. clear Haudio Hd.
  destruct st; cbn. destruct (getUserMedia env); unfold_monad; crunch.
  all: split_and!; try done; eauto; apply elem_of_union; right; by apply elem_of_singleton.
Qed.

Lemma App2_start_acquires st env video audio :
  getDisplayMedia env = DisplayGranted video audio → audio ≠ [] →
  let st' := exec (App2.startRecording env) st in
  recorderState st' = RECORDING
  ∧ (∃ rec, mediaRecorderRef st' = Some rec ∧ mr_state rec = st_recording)
  ∧ systemStreamRef st' = Some (display_stream video audio)
  ∧ mixedStreamRef st' = Some [ {| track_id := destinationTrack env; kind := AudioTrack |} ]
  ∧ audioContextRef st' = Some ctx_open
  ∧ timerIntervalRef st' = Some (setInterval env)
  ∧ setInterval env ∈ intervals st'.
Proof.
  intros Hd Haudio. cbv zeta. unfold App2.startRecording, App2.stopStreams.
  rewrite Hd. cbv zeta. rewrite getAudioTracks_display, getVideoTracks_display.
  destruct audio as [|a audio]; [done|]. clear Haudio Hd.
  destruct st; cbn. unfold_monad; crunch_all.
  all: split_and!; try done; eauto; apply elem_of_union; right; by apply elem_of_singleton.
Qed.

Lemma same_session_active st st' :
  same_session st st' →
  (∃ rec, mediaRecorderRef st = Some rec ∧ mr_state rec = st_recording) →
  ∃ rec', mediaRecorderRef st' = Some rec' ∧ mr_state rec' ≠ st_inactive.
Proof.
  intros (_ & Hr & _) (rec & Href & Hrec). rewrite Href in Hr.
  destruct (mediaRecorderRef st') as [rec'|]; [|done]. injection Hr as Hr.
  exists rec'. split; [done|]. congruence.
Qed.

Lemma not_in_cleared st i :
  i ≠ 0 → timerIntervalRef st = Some i → i ∉ cleared st.
Proof.
  unfold cleared. intros Hi ->. destruct i as [|i]; [done|].
  rewrite elem_of_difference, elem_of_singleton. tauto.
Qed.

(** X11.  On the page of [part_001], a session that started is released
    whole when it stops, whatever happened in between: every track of the
    display capture and of the microphone, where it was granted, is stopped,
    no stream stays active, the audio context is closed and the interval of
    the counter is cleared. *)
Theorem App1_stop_releases_the_session st env video audio evs stop :
  getDisplayMedia env = DisplayGranted video audio → audio ≠ [] →
  setInterval env ≠ 0 →
  Forall (λ ev, ¬ stops ev) evs →
  let st' := exec (App1.stopRecording stop) (App1.run evs (exec (App1.startRecording env) st)) in
  activeStreams st' = []
  ∧ audioContextRef st' = Some ctx_closed
  ∧ (setInterval env ∉ intervals st')
  ∧ (∀ track, track ∈ display_stream video audio → track_id track ∈ endedTracks st')
  ∧ (∀ mic, includeMic st = true → getUserMedia env = MicGranted mic →
       ∀ track, track ∈ microphone_stream mic → track_id track ∈ endedTracks st').
Proof.
  intros Hd Haudio Hi Hevs. cbv zeta.
  destruct (App1_start_acquires st env video audio Hd Haudio)
    as (Hs & Hrec & Hactive & Hctx & Hint & _).
  destruct (recording_run evs _ Hs Hevs) as [Hrun _].
  destruct (same_session_active _ _ Hrun Hrec) as (rec' & Href' & Hrec').
  destruct (App1_stop_releases _ stop rec' Href' Hrec') as (-> & -> & -> & ->).
  destruct Hrun as (_ & _ & Hint' & _ & Hactive' & Hctx' & _).
  rewrite Hactive', Hctx', Hactive, Hctx. split_and!; try done.
  - apply not_in_cleared; [done|congruence].
  - intros track Htrack. apply elem_of_union. right.
    apply elem_of_list_to_set, list_elem_of_fmap. exists track. split; [done|].
    rewrite concat_cons. apply elem_of_app. by left.
  - intros mic -> -> track Htrack. apply elem_of_union. right.
    apply elem_of_list_to_set, list_elem_of_fmap. exists track. split; [done|].
    rewrite concat_cons. apply elem_of_app. right. simpl. apply elem_of_app. by left.
Qed.

Lemma App1_stop_releases_the_session_witness :
  let st := mounted in
  let env := start_env (DisplayGranted 1 [2]) (MicGranted [3]) in
  let evs := [DataAvailable 10; IntervalFires 7; ClickDelete "1700000000000"] in
  let stop := stop_env 5 in
  getDisplayMedia env = DisplayGranted 1 [2] ∧ [2] ≠ []
  ∧ setInterval env ≠ 0
  ∧ Forall (λ ev, ¬ stops ev) evs
  ∧ (let st' := exec (App1.stopRecording stop)
                  (App1.run evs (exec (App1.startRecording env) st)) in
     activeStreams st' = []
     ∧ audioContextRef st' = Some ctx_closed
     ∧ (setInterval env ∉ intervals st')
     ∧ (∀ track, track ∈ display_stream 1 [2] → track_id track ∈ endedTracks st')
     ∧ (∀ mic, includeMic st = true → getUserMedia env = MicGranted mic →
          ∀ track, track ∈ microphone_stream mic → track_id track ∈ endedTracks st')).
Proof.
  assert (Forall (λ ev, ¬ stops ev)
            [DataAvailable 10; IntervalFires 7; ClickDelete "1700000000000"])
    as Hevs by (repeat constructor; simpl; tauto).
  assert ([2] ≠ ([] : list nat)) as Haudio by discriminate.
  assert (7 ≠ 0) as Hi by discriminate.
  split; [reflexivity|]. split; [exact Haudio|]. split; [exact Hi|]. split; [exact Hevs|].
  exact (App1_stop_releases_the_session mounted
           (start_env (DisplayGranted 1 [2]) (MicGranted [3])) 1 [2]
           [DataAvailable 10; IntervalFires 7; ClickDelete "1700000000000"] (stop_env 5)
           eq_refl Haudio Hi Hevs).
Defined.

(** X12.  On the page of [part_002]: every track of the display capture and
    the track of the mixed stream are stopped, the audio context is closed
    and the interval of the counter is cleared. *)
Theorem App2_stop_releases_the_session st env video audio evs stop :
  getDisplayMedia env = DisplayGranted video audio → audio ≠ [] →
  setInterval env ≠ 0 →
  Forall (λ ev, ¬ stops ev) evs →
  let st' := exec (App2.stopRecording stop) (App2.run evs (exec (App2.startRecording env) st)) in
  audioContextRef st' = Some ctx_closed
  ∧ (setInterval env ∉ intervals st')
  ∧ destinationTrack env ∈ endedTracks st'
  ∧ ∀ track, track ∈ display_stream video audio → track_id track ∈ endedTracks st'.
Proof.
  intros Hd Haudio Hi Hevs. cbv zeta.
  destruct (App2_start_acquires st env video audio Hd Haudio)
    as (Hs & Hrec & Hsys & Hmixed & Hctx & Hint & _).
  destruct (recording_run evs _ Hs Hevs) as [_ Hrun].
  destruct (same_session_active _ _ Hrun Hrec) as (rec' & Href' & Hrec').
  destruct (App2_stop_releases _ stop rec' Href' Hrec') as (-> & -> & ->).
  destruct Hrun as (_ & _ & Hint' & _ & _ & Hctx' & Hsys' & Hmixed' & _).
  rewrite Hsys', Hmixed', Hctx', Hsys, Hmixed, Hctx. split_and!; try done.
  - apply not_in_cleared; [done|congruence].
  - apply elem_of_union. right. simpl. apply elem_of_union. left. by apply elem_of_singleton.
  - intros track Htrack. apply elem_of_union. left. apply elem_of_union. right.
    apply elem_of_list_to_set, list_elem_of_fmap. by exists track.
Qed.

Lemma App2_stop_releases_the_session_witness :
  let st := mounted in
  let env := start_env (DisplayGranted 1 [2]) (MicGranted [3]) in
  let evs := [DataAvailable 10; IntervalFires 7; ClickDelete "1700000000000"] in
  let stop := stop_env 5 in
  getDisplayMedia env = DisplayGranted 1 [2] ∧ [2] ≠ []
  ∧ setInterval env ≠ 0
  ∧ Forall (λ ev, ¬ stops ev) evs
  ∧ (let st' := exec (App2.stopRecording stop)
                  (App2.run evs (exec (App2.startRecording env) st)) in
     audioContextRef st' = Some ctx_closed
     ∧ (setInterval env ∉ intervals st')
     ∧ destinationTrack env ∈ endedTracks st'
     ∧ ∀ track, track ∈ display_stream 1 [2] → track_id track ∈ endedTracks st').
Proof.
  assert (Forall (λ ev, ¬ stops ev)
            [DataAvailable 10; IntervalFires 7; ClickDelete "1700000000000"])
    as Hevs by (repeat constructor; simpl; tauto).
  assert ([2] ≠ ([] : list nat)) as Haudio by discriminate.
  assert (7 ≠ 0) as Hi by discriminate.
  split; [reflexivity|]. split; [exact Haudio|]. split; [exact Hi|]. split; [exact Hevs|].
  exact (App2_stop_releases_the_session mounted
           (start_env (DisplayGranted 1 [2]) (MicGranted [3])) 1 [2]
           [DataAvailable 10; IntervalFires 7; ClickDelete "1700000000000"] (stop_env 5)
           eq_refl Haudio Hi Hevs).
Defined.
(* ===================================================================== *)
(** ** [handleAnalyze] and [handleDelete] on any list                     *)
(* ===================================================================== *)

Lemma find_unknown_id (l : list Recording) target :
  (target ∉ id <$> l) → List.find (λ r, bool_decide (id r = target)) l = None.
Proof.
  induction l as [|r l IH]; [done|]. rewrite fmap_cons, not_elem_of_cons. intros [Hr Hl].
  simpl. rewrite bool_decide_eq_false_2 by done. by apply IH.
Qed.

(** X13.  [handleAnalyze] on an identifier that no recording of the list
    carries returns at once: the state is as it was, nothing is marked as
    processing, and the service is not called. *)
Theorem handleAnalyze_unknown_id alert_text target env st :
  (target ∉ id <$> recordings st) →
  exec (handleAnalyze alert_text target env) st = st.
Proof.
  intros Hid. unfold handleAnalyze. unfold_monad. by rewrite find_unknown_id.
Qed.

Lemma handleAnalyze_unknown_id_witness :
  ("1600000000000" ∉ id <$> recordings two_recordings)
  ∧ exec (App1.handleAnalyze "1600000000000" env_with_key) two_recordings = two_recordings.
Proof.
  assert ("1600000000000" ∉ id <$> recordings two_recordings) as Hid.
  { apply (bool_decide_unpack _). vm_compute. exact I. }
  split; [exact Hid|].
  exact (handleAnalyze_unknown_id _ "1600000000000" env_with_key two_recordings Hid).
Defined.

Lemma union_difference_singleton (X : gset string) x : (X ∪ {[x]}) ∖ {[x]} = X ∖ {[x]}.
Proof.
  apply set_eq. intros y. rewrite !elem_of_difference, elem_of_union. tauto.
Qed.

(** X14.  [handleAnalyze] on a recording of the list shows the alert exactly
    when the service throws, after whatever the service logged; in every
    case it leaves the identifier unmarked, and it touches neither the
    session nor the message of the page. *)
Theorem handleAnalyze_alerts_on_failure alert_text st env i r :
  NoDup (id <$> recordings st) → recordings st !! i = Some r →
  let st' := exec (handleAnalyze alert_text (id r) env) st in
  ∃ log c,
    GeminiService.analyzeAudio env (blob r) (effects st) = (log, c)
    ∧ effects st' = match c with
                    | Throw _ => log ++ [Alert alert_text]
                    | _ => log
                    end
    ∧ processingIds st' = processingIds st ∖ {[id r]}
    ∧ same_session st st' ∧ timer st' = timer st ∧ errorMsg st' = errorMsg st.
Proof.
  intros Hnd Hi. cbv zeta.
  destruct (handleAnalyze_session alert_text (id r) env st) as [Hsession Htimer].
  revert Hsession Htimer. unfold handleAnalyze. unfold_monad.
  rewrite (find_by_id _ _ _ Hnd Hi). cbn.
  destruct (GeminiService.analyzeAudio env (blob r) (effects st)) as [log c].
  intros Hsession Htimer. exists log, c.
  destruct c; cbn in *; split_and!; try done; apply union_difference_singleton.
Qed.

Lemma handleAnalyze_alerts_on_failure_witness :
  let st := two_recordings in
  let r := first_recording in
  NoDup (id <$> recordings st)
  ∧ recordings st !! 1 = Some r
  ∧ (let st' := exec (App2.handleAnalyze (id r) env_without_key) st in
     ∃ log c,
       GeminiService.analyzeAudio env_without_key (blob r) (effects st) = (log, c)
       ∧ effects st' = match c with
                       | Throw _ => log ++ [Alert "Failed to analyze audio. Please check your API Key."]
                       | _ => log
                       end
       ∧ processingIds st' = processingIds st ∖ {[id r]}
       ∧ same_session st st' ∧ timer st' = timer st ∧ errorMsg st' = errorMsg st).
Proof.
  assert (NoDup (id <$> recordings two_recordings)) as Hnd.
  { apply (bool_decide_unpack _). vm_compute. exact I. }
  split; [exact Hnd|]. split; [reflexivity|].
  exact (handleAnalyze_alerts_on_failure _ two_recordings env_without_key 1 first_recording
           Hnd eq_refl).
Defined.

Lemma upd_recordings_same f st : f (recordings st) = recordings st → upd_recordings f st = st.
Proof. destruct st; unfold upd_recordings; cbn. intros E. by rewrite E. Qed.

Lemma filter_other_ids_twice (l : list Recording) target :
  filter (λ r, id r ≠ target) (filter (λ r, id r ≠ target) l)
  = filter (λ r, id r ≠ target) l.
Proof.
  induction l as [|r l IH]; [done|]. destruct (decide (id r ≠ target)) as [Hr|Hr].
  - rewrite !filter_cons_True by done. by rewrite IH.
  - by rewrite filter_cons_False.
Qed.

(** X15.  [handleDelete] on any list, identifiers repeated or not: no entry
    with the identifier is left, the entries with another identifier stay as
    they were and in their order, nothing else of the state changes, and
    deleting an identifier the list does not carry, or deleting a second
    time, changes nothing. *)
Theorem handleDelete_leaves_no_such_entry target st :
  let st' := exec (handleDelete target) st in
  (target ∉ id <$> recordings st')
  ∧ (∀ r, id r ≠ target → r ∈ recordings st' ↔ r ∈ recordings st)
  ∧ sublist (recordings st') (recordings st)
  ∧ st' = upd_recordings (λ _, recordings st') st
  ∧ ((target ∉ id <$> recordings st) → st' = st)
  ∧ exec (handleDelete target) st' = st'.
Proof.
  cbv zeta. unfold handleDelete. unfold_monad. cbn. split_and!.
  - intros (r & E & Hr%list_elem_of_filter)%list_elem_of_fmap. by destruct Hr.
  - intros r Hr. rewrite list_elem_of_filter. tauto.
  - apply sublist_filter.
  - by destruct st.
  - intros Hid. apply upd_recordings_same. by apply filter_other_ids.
  - apply upd_recordings_same. cbn. apply filter_other_ids_twice.
Qed.
(* ===================================================================== *)
(** ** The recording a stop creates, and the identifiers of the list      *)
(* ===================================================================== *)

(** The recording a stop creates goes first, under the reading of the clock. *)
Lemma stop_new_id st env rec :
  mediaRecorderRef st = Some rec → mr_state rec ≠ st_inactive →
  ids (exec (App1.stopRecording env) st) = Js.toStringN (now_id env) :: ids st
  ∧ ids (exec (App2.stopRecording env) st) = Js.toStringN (now_id env) :: ids st.
Proof.
  intros Href Hactive. unfold ids.
  unfold App1.stopRecording, App2.stopRecording, recorder_stop, recorder_stopped,
    ondataavailable, App1.onstop, App1.cleanup, App2.onstop, App2.stopStreams.
  unfold_monad. revert Href. destruct st; cbn. intros ->.
  rewrite !bool_decide_eq_true_2 by done. clear Hactive.
  destruct (lastData env); crunch; done.
Qed.

(** X16.  The recording a stop creates stands first in the list under the
    identifier read from the clock, with the URL the platform made for its
    payload, and unanalysed: it has neither transcription nor summary.  The
    type of its payload is [video/mp4] or [audio/webm] after the encoding
    the recorder reports in [part_001], and the type the recorder was
    created with in [part_002]. *)
Theorem stop_creates_an_unanalysed_recording st env rec :
  mediaRecorderRef st = Some rec → mr_state rec ≠ st_inactive →
  (∃ r, recordings (exec (App1.stopRecording env) st) = r :: recordings st
        ∧ id r = Js.toStringN (now_id env) ∧ url r = createObjectURL env
        ∧ timestamp r = now_timestamp env
        ∧ transcription r = None ∧ summary r = None
        ∧ blob_type (blob r)
          = if Js.includes (negotiated env) "mp4" then "video/mp4" else "audio/webm")
  ∧ (∃ r, recordings (exec (App2.stopRecording env) st) = r :: recordings st
          ∧ id r = Js.toStringN (now_id env) ∧ url r = createObjectURL env
          ∧ timestamp r = now_timestamp env
          ∧ transcription r = None ∧ summary r = None
          ∧ blob_type (blob r) = mr_mimeType rec).
Proof.
  intros Href Hactive.
  unfold App1.stopRecording, App2.stopRecording, recorder_stop, recorder_stopped,
    ondataavailable, App1.onstop, App1.cleanup, App2.onstop, App2.stopStreams.
  unfold_monad. revert Href. destruct st; cbn. intros ->.
  rewrite !bool_decide_eq_true_2 by done. clear Hactive.
  split; destruct (lastData env); crunch; eexists; split_and!; done.
Qed.

Lemma stop_creates_an_unanalysed_recording_witness :
  let st := recording_session in
  let env := stop_env 10 in
  let rec := session_recorder in
  mediaRecorderRef st = Some rec
  ∧ mr_state rec ≠ st_inactive
  ∧ (∃ r, recordings (exec (App1.stopRecording env) st) = r :: recordings st
          ∧ id r = Js.toStringN (now_id env) ∧ url r = createObjectURL env
          ∧ timestamp r = now_timestamp env
          ∧ transcription r = None ∧ summary r = None
          ∧ blob_type (blob r)
            = if Js.includes (negotiated env) "mp4" then "video/mp4" else "audio/webm")
  ∧ (∃ r, recordings (exec (App2.stopRecording env) st) = r :: recordings st
          ∧ id r = Js.toStringN (now_id env) ∧ url r = createObjectURL env
          ∧ timestamp r = now_timestamp env
          ∧ transcription r = None ∧ summary r = None
          ∧ blob_type (blob r) = mr_mimeType rec).
Proof.
  assert (mr_state session_recorder ≠ st_inactive) as Hactive by discriminate.
  split; [reflexivity|]. split; [exact Hactive|].
  exact (stop_creates_an_unanalysed_recording recording_session (stop_env 10)
           session_recorder eq_refl Hactive).
Defined.

Lemma read_toStringN n : N.of_uint <$> NilEmpty.uint_of_string (Js.toStringN n) = Some n.
Proof.
  unfold Js.toStringN, NilZero.string_of_uint.
  pose proof (DecimalN.Unsigned.of_to n) as Hn.
  destruct (N.to_uint n) as [|d|d|d|d|d|d|d|d|d|d] eqn:Hd;
    [by rewrite <-Hn|..]; rewrite NilEmpty.usu; simpl; by rewrite <-Hn.
Qed.

Lemma toStringN_inj n m : Js.toStringN n = Js.toStringN m → n = m.
Proof.
  intros E. pose proof (read_toStringN n) as Hn. rewrite E, read_toStringN in Hn. congruence.
Qed.

Lemma ids_of_created st st' :
  as_created <$> recordings st' = as_created <$> recordings st → ids st' = ids st.
Proof.
  intros E. unfold ids.
  change id with ((λ c : string * Blob * string * N * nat * string, c.1.1.1.1.1) ∘ as_created).
  by rewrite !list_fmap_compose, E.
Qed.

(** What [stopRecording] does to the identifiers. *)
Lemma stop_ids st env :
  let stamped (st' : App) :=
    ids st' = ids st ∨ ids st' = Js.toStringN (now_id env) :: ids st in
  stamped (exec (App1.stopRecording env) st) ∧ stamped (exec (App2.stopRecording env) st).
Proof.
  cbv zeta. unfold ids.
  destruct (mediaRecorderRef st) as [rec|] eqn:Href.
  - destruct (decide (mr_state rec = st_inactive)) as [Hin|Hact].
    + destruct (stop_without_recorder st env) as [-> ->]; [intros; congruence|auto].
    + destruct (stop_new_id st env rec Href Hact) as [E1 E2]. unfold ids in E1, E2. auto.
  - destruct (stop_without_recorder st env) as [-> ->]; [intros; congruence|auto].
Qed.

(** One step of either page takes identifiers away, or puts the reading of
    the clock of a stop first. *)
Lemma ids_step ev st :
  let stamped (st' : App) :=
    sublist (ids st') (ids st)
    ∨ ∃ n, stamp ev = Some n ∧ ids st' = Js.toStringN n :: ids st in
  stamped (App1.dispatch ev st) ∧ stamped (App2.dispatch ev st).
Proof.
  cbv zeta.
  assert (∀ st' : App, recordings st' = recordings st → sublist (ids st') (ids st)) as Hsame.
  { intros st' E. unfold ids. by rewrite E. }
  destruct ev as [env|env|checked|target|target env|track env|interval|n]; cbn.
  - destruct (start_keeps_recordings env st) as [H1 H2].
    split; left; destruct (recorderState st); auto.
  - destruct (stop_ids st env) as [[H1|H1] [H2|H2]];
      split; destruct (recorderState st); try (by left); try (left; by rewrite ?H1, ?H2);
      right; by exists (now_id env).
  - split; left; [|done]. by destruct (recorderState st).
  - split; left; case_bool_decide; try done; unfold ids; apply fmap_sublist, sublist_filter.
  - split; left; case_bool_decide; try done;
      unfold App1.handleAnalyze, App2.handleAnalyze;
      by rewrite (ids_of_created _ _ (proj1 (handleAnalyze_frame _ target env st))).
  - case_bool_decide; [|by split; left].
    destruct (stop_ids (upd_endedTracks (λ ended, ended ∪ {[track]}) st) env)
      as [[H1|H1] [H2|H2]];
      split; try (left; by rewrite ?H1, ?H2); right; by exists (now_id env).
  - split; left; by case_bool_decide.
  - split; left; destruct (mediaRecorderRef st) as [rec|]; try done;
      case_bool_decide; try done; apply Hsame;
      unfold ondataavailable; unfold_monad; by destruct (0 <? _).
Qed.

Lemma stamps_cons ev evs :
  stamps (ev :: evs) = match stamp ev with Some n => n :: stamps evs | None => stamps evs end.
Proof. unfold stamps. simpl. by destruct (stamp ev). Qed.

Lemma run_ids (dispatch : Event → App → App) :
  (∀ ev st, sublist (ids (dispatch ev st)) (ids st)
            ∨ ∃ n, stamp ev = Some n ∧ ids (dispatch ev st) = Js.toStringN n :: ids st) →
  ∀ evs st,
    NoDup (stamps evs) → NoDup (ids st) →
    (∀ n, n ∈ stamps evs → Js.toStringN n ∉ ids st) →
    NoDup (ids (foldl (λ s ev, dispatch ev s) st evs)).
Proof.
  intros Hstep evs. induction evs as [|ev evs IH]; intros st Hevs Hst Hfresh; [done|].
  simpl. rewrite stamps_cons in Hevs, Hfresh.
  destruct (Hstep ev st) as [Hsub|(n & Hn & Hids)].
  - assert (NoDup (stamps evs) ∧ ∀ n, n ∈ stamps evs → Js.toStringN n ∉ ids st)
      as [Hevs' Hfresh'].
    { destruct (stamp ev); [|done]. apply NoDup_cons in Hevs as [_ ?].
      split; [done|]. intros m Hm. apply Hfresh. by right. }
    apply IH; [done|by eapply sublist_NoDup|].
    intros m Hm Hin. eapply Hfresh'; [done|]. by eapply elem_of_sublist.
  - rewrite Hn in Hevs, Hfresh. apply NoDup_cons in Hevs as [Hnew Hevs].
    apply IH; [done| |]; rewrite Hids.
    + apply NoDup_cons. split; [|done]. apply Hfresh. by left.
    + intros m Hm. apply not_elem_of_cons. split; [|apply Hfresh; by right].
      intros E%toStringN_inj. congruence.
Qed.

(** X17.  Where the readings of the clock at the stops of a run differ, the
    recordings of the list carry pairwise distinct identifiers, on either
    page: each identifier names one recording. *)
Theorem identifiers_are_distinct evs :
  NoDup (stamps evs) →
  NoDup (ids (App1.run evs mounted)) ∧ NoDup (ids (App2.run evs mounted)).
Proof.
  intros Hevs. split.
  - apply (run_ids App1.dispatch); try done; [|constructor|by intros n _ ?%elem_of_nil].
    intros ev st. apply (ids_step ev st).
  - apply (run_ids App2.dispatch); try done; [|constructor|by intros n _ ?%elem_of_nil].
    intros ev st. apply (ids_step ev st).
Qed.

Lemma identifiers_are_distinct_witness :
  NoDup (stamps two_sessions)
  ∧ NoDup (ids (App1.run two_sessions mounted)) ∧ NoDup (ids (App2.run two_sessions mounted)).
Proof.
  assert (NoDup (stamps two_sessions)) as Hevs.
  { apply (bool_decide_unpack _). vm_compute. exact I. }
  split; [exact Hevs|]. exact (identifiers_are_distinct two_sessions Hevs).
Defined.
(* ===================================================================== *)
(** ** The microphone                                                     *)
(* ===================================================================== *)

Lemma start_inputs st env video audio :
  getDisplayMedia env = DisplayGranted video audio → audio ≠ [] →
  (∃ rec, mediaRecorderRef (exec (App1.startRecording env) st) = Some rec
          ∧ mr_inputs rec = mixed_sources (includeMic st) (getUserMedia env))
  ∧ (∃ rec, mediaRecorderRef (exec (App2.startRecording env) st) = Some rec
            ∧ mr_inputs rec = [SystemAudio]).
Proof.
  intros Hd Haudio. unfold App1.startRecording, App1.cleanup, App2.startRecording,
    App2.stopStreams, mixed_sources.
  rewrite Hd. cbv zeta. rewrite getAudioTracks_display, getVideoTracks_display.
  destruct audio as [|a audio]; [done|]. clear Haudio Hd.
  destruct st; cbn. split.
  - destruct (getUserMedia env); unfold_monad; crunch; eauto.
  - unfold_monad; crunch_all; eauto.
Qed.

(** X18.  The microphone is asked for only on request: with the box
    unchecked [startRecording] of [part_001] does the same whatever
    [getUserMedia] would answer, and [startRecording] of [part_002] always
    does.  A recorder that starts records the system audio, and the
    microphone after it exactly when the box was checked and the microphone
    was granted. *)
Theorem microphone_only_on_request st env mic :
  (includeMic st = false →
   exec (App1.startRecording (with_getUserMedia mic env)) st
   = exec (App1.startRecording env) st)
  ∧ exec (App2.startRecording (with_getUserMedia mic env)) st
    = exec (App2.startRecording env) st
  ∧ (recorderState (exec (App1.startRecording env) st) = RECORDING →
     ∃ rec, mediaRecorderRef (exec (App1.startRecording env) st) = Some rec
            ∧ mr_inputs rec = mixed_sources (includeMic st) (getUserMedia env))
  ∧ (recorderState (exec (App2.startRecording env) st) = RECORDING →
     ∃ rec, mediaRecorderRef (exec (App2.startRecording env) st) = Some rec
            ∧ mr_inputs rec = [SystemAudio]).
Proof.
  split_and!.
  - intros Hmic. unfold App1.startRecording. unfold_monad. cbn. by rewrite Hmic.
  - done.
  - intros Hs.
    destruct (App1_start_outcome env st)
      as [(_ & _ & _ & (video & audio & Hd & Haudio) & _)|(Hidle & _)]; [|congruence].
    apply (start_inputs st env video audio Hd Haudio).
  - intros Hs.
    destruct (App2_start_outcome env st)
      as [(_ & _ & _ & (video & audio & Hd & Haudio) & _)|(Hidle & _)]; [|congruence].
    apply (start_inputs st env video audio Hd Haudio).
Qed.
(* ===================================================================== *)
(** ** The visualizer                                                     *)
(* ===================================================================== *)

Section visualizer_facts.
Import AudioVisualizer.

#[local] Arguments painted : simpl never.

Lemma created_tidy : tidy created.
Proof. split; [by intros _ [? ?]|]. by repeat split. Qed.

(** The cleanup of an effect that started the audio gives back what the
    effect took. *)
Lemma cleanup_running v :
  running v →
  at_rest (cleanup v) ∧ canvasRef (cleanup v) = canvasRef v
  ∧ gone (cleanup v) = gone v ∧ deps (cleanup v) = deps v ∧ canvas (cleanup v) = canvas v.
Proof.
  intros (Hclosed & Hctx & Hopen & Hframe & _). unfold one_frame in Hframe.
  destruct v as [cv an ctx al so op cl pe ca de hc go]; cbn in *. subst ctx op cl.
  unfold cleanup, cancel_animation, cancelAnimationFrame, close, at_rest.
  destruct Hframe as [Hpe|(frame & Hframe & -> & Hpe)].
  - destruct an as [[|n]|]; cbn; rewrite Hpe, ?empty_difference_L; by split_and!.
  - destruct frame as [|n]; [done|]. cbn. rewrite Hpe, difference_diag_L. by split_and!.
Qed.

(** What React runs before the next effect, or when the component leaves. *)
Lemma settle_at_rest v :
  tidy v →
  let v' := if has_cleanup v then cleanup v else v in
  at_rest v' ∧ canvasRef v' = canvasRef v ∧ gone v' = gone v ∧ deps v' = deps v
  ∧ canvas v' = canvas v.
Proof.
  intros [_ Hv]. destruct (active v); destruct Hv as [Hv ->]; cbv zeta.
  - by apply cleanup_running.
  - by split_and!.
Qed.

(** [draw] on a running component without a pending frame. *)
Lemma draw_running env v :
  requestAnimationFrame env ≠ 0 →
  running v → pending v = ∅ →
  running (draw env v) ∧ gone (draw env v) = gone v ∧ deps (draw env v) = deps v
  ∧ has_cleanup (draw env v) = has_cleanup v
  ∧ (getContext env = true →
     pending (draw env v) = {[requestAnimationFrame env]}
     ∧ canvas (draw env v) = painted 256 env).
Proof.
  intros Hid (Hclosed & Hctx & Hopen & _ & Hcv & Hal) Hpe.
  destruct v as [cv an ctx al so op cl pe ca de hc go]; cbn in *. subst.
  unfold draw, running, one_frame. cbn.
  destruct (getContext env); cbn; rewrite ?(left_id_L ∅ (∪)).
  - split_and!; try done. right. by exists (requestAnimationFrame env).
  - split_and!; try done. by left.
Qed.

(** [initAudio] on a component at rest. *)
Lemma initAudio_running s env v :
  requestAnimationFrame env ≠ 0 →
  at_rest v → canvasRef v = true →
  running (initAudio s env v) ∧ gone (initAudio s env v) = gone v
  ∧ (getContext env = true →
     pending (initAudio s env v) = {[requestAnimationFrame env]}
     ∧ canvas (initAudio s env v) = painted 256 env).
Proof.
  intros Hid (Hclosed & Hctx & Hopen & Hpe) Hcv. unfold initAudio. cbv zeta.
  match goal with |- context [draw env ?v0] => set (started := v0) end.
  assert (running started) as Hrun.
  { subst started. destruct v as [cv an ctx al so op cl pe ca de hc go]; cbn in *. subst.
    unfold running, one_frame. cbn. split_and!; try done. by left. }
  assert (pending started = ∅) as Hnone by (subst started; by destruct v).
  destruct (draw_running env started Hid Hrun Hnone) as (? & -> & _ & _ & ?).
  by split_and!.
Qed.

(** The effect when there is no stream or nothing is recorded. *)
Lemma inactive_at_rest env v :
  at_rest v →
  let v' := (let v := match audioContextRef v with
                      | Some ctx_open => close v
                      | _ => v
                      end in
             let v := cancel_animation v in
             if canvasRef v && getContext env then clearRect v else v) in
  at_rest v' ∧ gone v' = gone v ∧ canvasRef v' = canvasRef v
  ∧ (canvasRef v = true → getContext env = true → canvas v' = []).
Proof.
  intros (Hclosed & Hctx & Hopen & Hpe).
  destruct v as [cv an ctx al so op cl pe ca de hc go]; cbn in *. subst.
  unfold at_rest, cancel_animation, cancelAnimationFrame, clearRect, close.
  destruct ctx as [[|]|]; try done;
    destruct an as [[|n]|], cv, (getContext env); cbn; rewrite ?empty_difference_L;
    by split_and!.
Qed.

Lemma effect_tidy stream isRecording env v :
  requestAnimationFrame env ≠ 0 →
  at_rest v → canvasRef v = true → gone v = false →
  tidy (effect stream isRecording env v).
Proof.
  intros Hid Hrest Hcv Hgo.
  assert (∀ s, tidy (effect_ran (Some s, true) true (initAudio s env v))) as Hstart.
  { intros s. destruct (initAudio_running s env v Hid Hrest Hcv) as (Hrun & Hg & _).
    split.
    - intros _ _. cbn. apply Hrun.
    - unfold active. cbn. rewrite Hg, Hgo. cbn. split; [|done].
      destruct Hrun as (? & ? & ? & ? & ? & ?). by split_and!. }
  destruct (inactive_at_rest env v Hrest) as (Hstop & Hg & Hc & _). cbv zeta in Hstop, Hg, Hc.
  unfold effect. destruct stream as [s|], isRecording; try apply Hstart.
  all: split; [intros _ _; cbn; by rewrite Hc|].
  all: unfold active; cbn; rewrite andb_false_r; split; [|done].
  all: destruct Hstop as (? & ? & ? & ?); by split_and!.
Qed.

Lemma tidy_step ev v : frame_identifier ev → tidy v → tidy (dispatch ev v).
Proof.
  intros Hev Hv. destruct (settle_at_rest v Hv) as (Hrest & Hcv & Hgo & Hdeps & _).
  cbv zeta in *.
  destruct ev as [stream isRecording env|frame env|]; cbn in Hev; unfold dispatch.
  - destruct (gone v) eqn:Hgone; [done|].
    destruct (deps v) as [before|] eqn:Hbefore.
    + case_bool_decide; [done|]. apply effect_tidy; try done.
      rewrite Hcv. by apply Hv.
    + destruct Hv as [_ Hv]. unfold active in Hv. rewrite Hbefore, andb_false_r in Hv.
      destruct Hv as [(Hclosed & Hctx & Hopen & Hpe) _].
      apply effect_tidy; try done; by destruct v.
  - case_bool_decide as Hin; [|done].
    destruct Hv as [Hcanvas Hv]. destruct (active v) eqn:Hactive.
    + destruct Hv as [(Hclosed & Hctx & Hopen & Hframe & Hc & Hal) Hhc].
      destruct Hframe as [Hpe|(f & Hf & Han & Hpe)].
      { rewrite Hpe in Hin. by apply elem_of_empty in Hin. }
      rewrite Hpe in Hin. apply elem_of_singleton in Hin as ->.
      match goal with |- context [draw env ?v0] => set (fired := v0) end.
      assert (running fired) as Hrun.
      { subst fired. destruct v; cbn in *. unfold running, one_frame; cbn.
        rewrite Hpe, difference_diag_L. split_and!; try done. by left. }
      assert (pending fired = ∅) as Hnone.
      { subst fired. destruct v; cbn in *. by rewrite Hpe, difference_diag_L. }
      destruct (draw_running env fired Hev Hrun Hnone) as (Hrun' & Hg & Hd & Hh & _).
      assert (gone fired = gone v ∧ deps fired = deps v ∧ has_cleanup fired = has_cleanup v)
        as (Hg0 & Hd0 & Hh0) by (subst fired; by destruct v).
      split.
      * intros _ _. apply Hrun'.
      * unfold active in *. rewrite Hg, Hd, Hg0, Hd0, Hactive. split; [done|congruence].
    + destruct Hv as [(_ & _ & _ & Hpe) _]. rewrite Hpe in Hin. by apply elem_of_empty in Hin.
  - destruct (gone v) eqn:Hgone; [done|].
    split; [done|]. unfold active. cbn. split; [|done].
    destruct Hrest as (? & ? & ? & ?). by split_and!.
Qed.







Lemma bars_length data bw x : length (bars data bw x) = length data.
Proof. revert x. induction data as [|byte data IH]; intros x; simpl; [done|]. by rewrite IH. Qed.

(** The bar of the byte [i]: [i] steps of one bar and one pixel from the
    start, as wide as every bar, half the byte high, standing on the bottom
    of the canvas. *)
Lemma bars_lookup data bw x i byte :
  data !! i = Some byte →
  ∃ r, bars data bw x !! i = Some r
       ∧ (rect_x r == x + inject_Z (Z.of_nat i) * (bw + 1))%Q
       ∧ rect_w r = bw
       ∧ rect_h r = (inject_Z (Z.of_nat byte) / 2)%Q
       ∧ rect_y r = (height - rect_h r)%Q.
Proof.
  revert x i. induction data as [|b data IH]; intros x i Hi; [done|].
  destruct i as [|i]; simpl in Hi.
  - injection Hi as ->. eexists. split; [done|]. simpl. split_and!; try done.
    unfold inject_Z. simpl. ring.
  - destruct (IH (x + (bw + 1))%Q i Hi) as (r & Hr & Hx & Hrest).
    exists r. split; [done|]. split; [|done].
    rewrite Hx, Nat2Z.inj_succ, <-Z.add_1_r, inject_Z_plus. ring.
Qed.

(** X21.  What one run of [draw] paints on the canvas of 600 by 150: 128
    bars, one for each frequency bin; the bar of the bin [i] starts
    12.71875 pixels after the one before, is 11.71875 pixels wide and half
    its byte high, and stands on the bottom edge.  A byte keeps its bar
    within the height of the canvas.  Only the bars of the bins 0 to 46 lie
    within its width: from the bin 48 on a bar starts beyond the right
    edge, so that 80 of the 128 bins are never shown. *)
Theorem draw_paints_the_low_bins env i :
  i < 128 →
  length (painted 256 env) = 128
  ∧ ∃ r, painted 256 env !! i = Some r
         ∧ (rect_x r == 12.71875 * inject_Z (Z.of_nat i))%Q
         ∧ (rect_w r == 11.71875)%Q
         ∧ (rect_h r == inject_Z (Z.of_nat (byte_of env i)) / 2)%Q
         ∧ (rect_y r + rect_h r == height)%Q
         ∧ (byte_of env i ≤ 255 → (0 <= rect_y r)%Q)
         ∧ (i ≤ 46 → (rect_x r + rect_w r <= width)%Q)
         ∧ (48 ≤ i → (width <= rect_x r)%Q).
Proof.
  intros Hi. unfold painted.
  change (frequencyBinCount 256) with 128. cbv zeta.
  split; [by rewrite bars_length, length_resize|].
  assert (resize 128 0 (getByteFrequencyData env) !! i = Some (byte_of env i)) as Hbyte.
  { unfold byte_of. destruct (decide (i < length (getByteFrequencyData env))) as [Hl|Hl].
    - rewrite lookup_resize by done.
      by destruct (lookup_lt_is_Some_2 _ _ Hl) as [b ->].
    - rewrite lookup_resize_new by lia. by rewrite lookup_ge_None_2 by lia. }
  destruct (bars_lookup _ (width / inject_Z (Z.of_nat 128) * 2.5)%Q 0%Q _ _ Hbyte)
    as (r & Hr & Hx & Hw & Hh & Hy).
  exists r. split; [done|].
  assert (rect_x r == 12.71875 * inject_Z (Z.of_nat i))%Q as Hx'.
  { rewrite Hx. unfold width. change (Z.of_nat 128) with 128%Z.
    unfold Qeq, Qplus, Qmult, Qdiv, Qinv, inject_Z. simpl. lia. }
  assert (rect_w r == 11.71875)%Q as Hw' by (by rewrite Hw).
  split_and!; try done.
  - by rewrite Hh.
  - rewrite Hy. ring.
  - intros Hb. rewrite Hy, Hh. unfold height, Qle, Qminus, Qplus, Qopp, Qdiv, Qmult, Qinv, inject_Z.
    simpl. lia.
  - intros Hlow. rewrite Hx', Hw'. unfold width, Qle, Qplus, Qmult, inject_Z. simpl. lia.
  - intros Hhigh. rewrite Hx'. unfold width, Qle, Qmult, inject_Z. simpl. lia.
Qed.

Lemma draw_paints_the_low_bins_witness :
  50 < 128
  ∧ length (painted 256 (frame_env 12)) = 128
  ∧ ∃ r, painted 256 (frame_env 12) !! 50 = Some r
         ∧ (rect_x r == 12.71875 * inject_Z (Z.of_nat 50))%Q
         ∧ (rect_w r == 11.71875)%Q
         ∧ (rect_h r == inject_Z (Z.of_nat (byte_of (frame_env 12) 50)) / 2)%Q
         ∧ (rect_y r + rect_h r == height)%Q
         ∧ (byte_of (frame_env 12) 50 ≤ 255 → (0 <= rect_y r)%Q)
         ∧ (50 ≤ 46 → (rect_x r + rect_w r <= width)%Q)
         ∧ (48 ≤ 50 → (width <= rect_x r)%Q).
Proof.
  assert (50 < 128) as Hi by lia.
  split; [exact Hi|]. exact (draw_paints_the_low_bins (frame_env 12) 50 Hi).
Defined.

End visualizer_facts.
(* ===================================================================== *)
(** ** The page and its visualizer                                        *)
(* ===================================================================== *)

Section shown_facts.
Import AudioVisualizer.

#[local] Arguments painted : simpl never.

Lemma draw_keeps env v :
  sourceRef (draw env v) = sourceRef v ∧ deps (draw env v) = deps v
  ∧ gone (draw env v) = gone v.
Proof. destruct v as [[|] ? ? [?|]]; unfold draw; cbn; by destruct (getContext env). Qed.

Lemma effect_keeps stream isRecording env v :
  gone (effect stream isRecording env v) = gone v
  ∧ deps (effect stream isRecording env v) = Some (stream, isRecording)
  ∧ (isRecording = true →
     sourceRef (effect stream isRecording env v) = stream
     ∨ stream = None).
Proof.
  unfold effect. destruct stream as [s|], isRecording; cbn.
  - unfold initAudio. cbv zeta.
    match goal with |- context [draw env ?v0] =>
      destruct (draw_keeps env v0) as (-> & _ & ->) end.
    split_and!; try done. by left.
  - split_and!; try done.
    destruct v as [[|] [[|?]|] [[|]|]]; cbn; by destruct (getContext env).
  - split_and!; [|done|by right].
    destruct v as [[|] [[|?]|] [[|]|]]; cbn; by destruct (getContext env).
  - split_and!; try done.
    destruct v as [[|] [[|?]|] [[|]|]]; cbn; by destruct (getContext env).
Qed.

Lemma cleanup_keeps v : gone (cleanup v) = gone v.
Proof. by destruct v as [? [[|?]|] [[|]|]]. Qed.

(** A render, for a visualizer that is on the page. *)
Lemma render_shows st env v :
  gone v = false →
  (recorderState st = RECORDING → is_Some (mixedStreamRef st)) →
  (deps v = Some (mixedStreamRef st, bool_decide (recorderState st = RECORDING)) →
   active v = true → sourceRef v = mixedStreamRef st) →
  shows (st, dispatch (render_of st env) v).
Proof.
  intros Hgone Hmixed Hsame. unfold render_of, dispatch. rewrite Hgone.
  assert (∀ v0, gone v0 = false →
            shows (st, effect (mixedStreamRef st) (bool_decide (recorderState st = RECORDING))
                         env v0)) as Heffect.
  { intros v0 Hg0. unfold shows, active. cbn [fst snd].
    destruct (effect_keeps (mixedStreamRef st) (bool_decide (recorderState st = RECORDING))
                env v0) as (-> & -> & Hsource).
    rewrite Hg0. split_and!; try done.
    case_bool_decide as Hs; [|by destruct (mixedStreamRef st)].
    destruct (Hmixed Hs) as [s Hm]. intros _.
    destruct (Hsource eq_refl) as [?|?]; congruence. }
  destruct (deps v) as [before|] eqn:Hbefore.
  - destruct (decide (before = (mixedStreamRef st, bool_decide (recorderState st = RECORDING))))
      as [->|Hne]; [rewrite bool_decide_eq_true_2 by done|rewrite bool_decide_eq_false_2 by done].
    + unfold shows. cbn [fst snd]. split_and!; try done. by apply Hsame.
    + apply Heffect. destruct (has_cleanup v); [|done]. by rewrite cleanup_keeps.
  - by apply Heffect.
Qed.

Lemma frame_shows st frame env v :
  shows (st, v) → shows (st, dispatch (Frame frame env) v).
Proof.
  intros Hshows. unfold dispatch. destruct (bool_decide _); [|done].
  destruct Hshows as (Hgone & Hdeps & Hsource). cbn [fst snd] in *.
  match goal with |- context [draw env ?v0] =>
    destruct (draw_keeps env v0) as (Hs & Hd & Hg) end.
  unfold shows, active in *. cbn [fst snd]. rewrite Hs, Hd, Hg. cbn. by split_and!.
Qed.

End shown_facts.

Lemma App1_start_mixes st env video audio :
  getDisplayMedia env = DisplayGranted video audio → audio ≠ [] →
  is_Some (mixedStreamRef (exec (App1.startRecording env) st)).
Proof.
  intros Hd Haudio. unfold App1.startRecording, App1.cleanup.
  rewrite Hd. cbv zeta. rewrite getAudioTracks_display, getVideoTracks_display.
  destruct audio as [|a audio]; [done|]. clear Haudio Hd.
  destruct st; cbn. destruct (getUserMedia env); unfold_monad; crunch; eauto.
Qed.

Lemma mixes_step ev st :
  agree st → mixes st → mixes (App1.dispatch ev st) ∧ mixes (App2.dispatch ev st).
Proof.
  intros Hst Hmix. destruct (decide (quiet ev)) as [Hq|Hq].
  { destruct (quiet_step ev st Hq) as [[(Hs1 & _ & _ & _ & _ & _ & _ & Hm1 & _) _]
                                       [(Hs2 & _ & _ & _ & _ & _ & _ & Hm2 & _) _]].
    unfold mixes. by rewrite Hs1, Hs2, Hm1, Hm2. }
  destruct ev as [env|env| | | |track env| |]; try (by destruct Hq); clear Hq; cbn.
  - destruct Hst as [[Hs _]|[Hs _]]; rewrite Hs; [|done]. split; intros Hrec.
    + destruct (App1_start_outcome env st)
        as [(_ & _ & _ & (video & audio & Hd & Ha) & _)|(Hidle & _)]; [|congruence].
      by eapply App1_start_mixes.
    + destruct (App2_start_outcome env st)
        as [(_ & _ & _ & (video & audio & Hd & Ha) & _)|(Hidle & _)]; [|congruence].
      destruct (App2_start_acquires st env video audio Hd Ha) as (_ & _ & _ & -> & _). eauto.
  - destruct (stop_step st env Hst) as [[[H1 _] _] [[H2 _] _]].
    destruct Hst as [[Hs _]|[Hs _]]; rewrite Hs; [done|].
    split; intros ?; congruence.
  - destruct (bool_decide _); [|done].
    destruct (stop_step (upd_endedTracks (λ ended, ended ∪ {[track]}) st) env Hst)
      as [[[H1 _] _] [[H2 _] _]].
    split; intros ?; congruence.
Qed.

(** One step of the page that shows the visualizer. *)
Lemma shown_step_kept step s :
  frame_of step ≠ 0 →
  let kept (s : App * AudioVisualizer.Visualizer) :=
    agree s.1 ∧ mixes s.1 ∧ tidy s.2 ∧ shows s in
  kept s →
  kept (shown_step App1.dispatch step s) ∧ kept (shown_step App2.dispatch step s).
Proof.
  intros Hframe kept (Hst & Hmix & Hv & Hshows). subst kept. destruct s as [st v].
  cbn [fst snd] in *.
  destruct step as [ev env|frame env]; cbn [shown_step fst snd] in *.
  - destruct (page_step ev st Hst) as [[Hst1 _] [Hst2 _]].
    destruct (mixes_step ev st Hst Hmix) as [Hmix1 Hmix2].
    destruct Hshows as (Hgone & Hdeps & Hsource). cbn [fst snd] in *.
    split; (split_and!; [done|done|by apply tidy_step|]).
    + apply render_shows; try done. rewrite Hdeps. intros [= <- _]. done.
    + apply render_shows; try done. rewrite Hdeps. intros [= <- _]. done.
  - split; (split_and!; [done|done|by apply tidy_step|by apply frame_shows]).
Qed.

Lemma kept_follows s : mixes s.1 → tidy s.2 → shows s → follows s.
Proof.
  destruct s as [st v]. cbn [fst snd]. intros Hmix [_ Hv] (Hgone & Hdeps & Hsource).
  cbn [fst snd] in *. unfold follows. cbn [fst snd].
  assert (active v = bool_decide (recorderState st = RECORDING)) as Hactive.
  { unfold active. rewrite Hgone, Hdeps. cbn. case_bool_decide as Hs.
    - by destruct (Hmix Hs) as [s ->].
    - by destruct (mixedStreamRef st). }
  rewrite Hactive in Hv, Hsource. split; [done|].
  case_bool_decide as Hs.
  - destruct Hv as [(_ & _ & -> & _) _]. split_and!; auto. by intros ?.
  - destruct Hv as [(_ & _ & -> & Hpe) _]. split_and!; auto.

Qed.

(** X22.  The page and its visualizer, rendered after every event of the
    page, with animation frames in between: where the platform hands out
    non-zero frame identifiers, on either page the visualizer is active and
    holds an open audio context exactly while the page is recording, it then
    analyses the very stream [mixedStreamRef] holds, and while the page is
    not recording no animation frame is pending. *)
Theorem visualizer_follows_the_page env steps :
  AudioVisualizer.requestAnimationFrame env ≠ 0 →
  Forall (λ step, frame_of step ≠ 0) steps →
  follows (shown_run App1.dispatch steps (shown_mounted env))
  ∧ follows (shown_run App2.dispatch steps (shown_mounted env)).
Proof.
  intros Henv Hsteps.
  assert (agree (shown_mounted env).1 ∧ mixes (shown_mounted env).1
          ∧ tidy (shown_mounted env).2 ∧ shows (shown_mounted env)) as Hs.
  { split_and!; [apply mounted_agree|done| |].
    - apply tidy_step; [done|apply created_tidy].
    - by apply render_shows. }
  revert Hs. generalize (shown_mounted env) as s.
  induction Hsteps as [|step steps Hstep _ IH]; intros s Hs.
  - destruct Hs as (_ & ? & ? & ?). split; by apply kept_follows.
  - destruct (shown_step_kept step s Hstep Hs) as [H1 H2]. cbn.
    split; [apply (IH _ H1)|apply (IH _ H2)].
Qed.


Lemma visualizer_follows_the_page_witness :
  AudioVisualizer.requestAnimationFrame (frame_env 11) ≠ 0
  ∧ Forall (λ step, frame_of step ≠ 0) shown_steps
  ∧ follows (shown_run App1.dispatch shown_steps (shown_mounted (frame_env 11)))
  ∧ follows (shown_run App2.dispatch shown_steps (shown_mounted (frame_env 11))).
Proof.
  assert (AudioVisualizer.requestAnimationFrame (frame_env 11) ≠ 0) as Henv by discriminate.
  assert (Forall (λ step, frame_of step ≠ 0) shown_steps) as Hsteps
    by (repeat constructor; discriminate).
  split; [exact Henv|]. split; [exact Hsteps|].
  exact (visualizer_follows_the_page (frame_env 11) shown_steps Henv Hsteps).
Defined.
